(** * sec-text-clustering: the scraping and clustering utilities

    A shallow embedding of [utils/processing.py] and [utils/analysis.py]:
    the style-attribute parser, the 10-K section extractor, the batch
    scraper, the lemma/stem filter and the grouping of companies by their
    dominant LDA topic.  Python dictionaries are finite maps, Python lists
    are lists, a Python string is held as the bytes of its UTF-8 encoding,
    exceptions are explicit results, and the external services
    (HTTP fetch and HTML parsing, [str.lower], the lemmatizer, the stemmer,
    the fitted LDA model) are parameters of the sections that use them. *)

From Stdlib Require Import String Ascii ZArith List Floats.PrimFloat.
From stdpp Require Import gmap strings list fin_maps.

(** ** Python strings *)

Module PyStr.

(** [s.split(sep)] for a one-character separator: the pieces between the
    separators, so a string without separator is a single piece and the
    empty string splits into one empty piece. *)
Fixpoint split (sep : ascii) (s : string) : list string :=
  match s with
  | EmptyString => [EmptyString]
  | String c s' =>
      if Ascii.eqb c sep then EmptyString :: split sep s'
      else match split sep s' with
           | [] => [String c EmptyString]
           | seg :: segs => String c seg :: segs
           end
  end.

(** [sep.join(pieces)], the inverse of [split]. *)
Fixpoint join (sep : ascii) (pieces : list string) : string :=
  match pieces with
  | [] => EmptyString
  | [p] => p
  | p :: ps => p +:+ String sep (join sep ps)
  end.

(** A continuation byte of a UTF-8 sequence, [0x80 .. 0xBF]. *)
Definition is_continuation (c : ascii) : bool :=
  let n := nat_of_ascii c in (128 <=? n)%nat && (n <=? 191)%nat.

(** [len(s)]: the number of characters of [s].  In UTF-8 every character
    is one leading byte followed by continuation bytes only, so the
    characters are counted by their leading bytes; on ASCII text this is
    the number of bytes. *)
Fixpoint len (s : string) : nat :=
  match s with
  | EmptyString => 0
  | String c s' => (if is_continuation c then 0 else 1) + len s'
  end.

(** [s] is ASCII text. *)
Fixpoint all_below_128 (s : string) : bool :=
  match s with
  | EmptyString => true
  | String c s' => (nat_of_ascii c <? 128)%nat && all_below_128 s'
  end.

(** Number of occurrences of the character [c] in [s]. *)
Fixpoint count (c : ascii) (s : string) : nat :=
  match s with
  | EmptyString => 0
  | String c' s' => (if Ascii.eqb c' c then 1 else 0) + count c s'
  end.

(** [needle in hay]: [needle] occurs in [hay] as a contiguous substring. *)
Fixpoint contains (needle hay : string) : bool :=
  String.prefix needle hay
  || match hay with
     | EmptyString => false
     | String _ hay' => contains needle hay'
     end.

(** [s.lower()] on ASCII text: the letters [A]..[Z] become [a]..[z]. *)
Definition lower_char (c : ascii) : ascii :=
  let n := nat_of_ascii c in
  if (65 <=? n)%nat && (n <=? 90)%nat then ascii_of_nat (n + 32) else c.

Fixpoint ascii_lower (s : string) : string :=
  match s with
  | EmptyString => EmptyString
  | String c s' => String (lower_char c) (ascii_lower s')
  end.

(** [s[:n]]: the first [n] characters, fewer when [s] is shorter. *)
Fixpoint take (n : nat) (s : string) : string :=
  match n, s with
  | S n', String c s' => String c (take n' s')
  | _, _ => EmptyString
  end.

End PyStr.

(** ** AttributeParser: [convert_attr_to_dict] *)

(** The loop body of [convert_attr_to_dict]: a [pair] of exactly two parts
    is stored under its first part, anything else leaves [result] alone. *)
Definition store_pair (result : gmap string string) (pair : list string)
  : gmap string string :=
  match pair with
  | [key; value] => <[key := value]> result
  | _ => result
  end.

Definition convert_attr_to_dict (attr : string) : gmap string string :=
  let attr := PyStr.split ";" attr in
  let attrlist := PyStr.split ":" <$> attr in
  foldl store_pair ∅ attrlist.

(** ** SectionExtractor: [get_10k_text] *)

(** A top-level node [data] of [rawdoc.html.body], as far as the extractor
    looks at it.  [font_style] is the value of [data.find('font')['style']],
    or [None] when that expression raises (the node is a bare string, it has
    no [font] descendant, or the [font] element has no [style] attribute);
    [text] is [data.text]. *)
Record node := Node { font_style : option string; text : string }.

(** The three loop variables of [get_10k_text]. *)
Record extraction := Extraction {
  headers : list string;
  paragraphs : list string;
  start_recording : bool
}.

(** How one iteration leaves the [for] loop body. *)
Inductive flow := Continue (st : extraction) | Break (st : extraction).

Definition flow_state (f : flow) : extraction :=
  match f with Continue st | Break st => st end.

Section SectionExtractor.

(** [str.lower], a service of the Python runtime. *)
Variable lower : string → string.

Definition is_bold (style : string) : bool :=
  let attributes := convert_attr_to_dict style in
  bool_decide (attributes !! "font-weight" = Some "bold").

(** One iteration of the loop over the body nodes.  The only expression of
    the [try] block that can raise is the first one, before any variable is
    touched, and the handler is [continue]. *)
Definition visit (st : extraction) (data : node) : flow :=
  match font_style data with
  | None => Continue st
  | Some style =>
      if is_bold style then
        let st :=
          if PyStr.contains "business" (lower (text data))
          then Extraction (headers st) (paragraphs st) true
          else st in
        if PyStr.contains "risk factors" (lower (text data)) then Break st
        else if start_recording st
        then Continue (Extraction (headers st ++ [text data]) (paragraphs st)
                                  (start_recording st))
        else Continue st
      else
        if start_recording st
        then Continue (Extraction (headers st) (paragraphs st ++ [text data])
                                  (start_recording st))
        else Continue st
  end.

(** The node is classified as a header (bold) and its lowered text contains
    [marker]. *)
Definition bold_with (marker : string) (data : node) : bool :=
  match font_style data with
  | None => false
  | Some style => is_bold style && PyStr.contains marker (lower (text data))
  end.

Fixpoint walk (st : extraction) (body : list node) : extraction :=
  match body with
  | [] => st
  | data :: rest =>
      match visit st data with
      | Continue st' => walk st' rest
      | Break st' => st'
      end
  end.

(** The extractor on an already fetched and parsed body. *)
Definition extract_section (body : list node) : list string * list string :=
  let st := walk (Extraction [] [] false) body in
  (headers st, paragraphs st).

(** [requests.get(url)] followed by the HTML parser and [rawdoc.html.body]:
    the body nodes of the page, or [None] when any of this raises (nothing
    in [get_10k_text] catches that). *)
Variable fetch : string → option (list node).

Definition get_10k_text (url : string) : option (list string * list string) :=
  body ← fetch url; Some (extract_section body).

(** ** BatchScraper: [scrape_edgar] *)

(** [if len(header) > 100: documents[company].append(header)] *)
Definition repair (company : string) (documents : gmap string (list string))
    (header : string) : gmap string (list string) :=
  if (100 <? PyStr.len header)%nat
  then alter (λ doc, doc ++ [header]) company documents
  else documents.

(** The headers the repair step copies into the paragraphs. *)
Definition long_header (header : string) : Prop := 100 < PyStr.len header.

Global Instance long_header_dec header : Decision (long_header header).
Proof. unfold long_header. apply _. Defined.

(** The body of the loop over [urls.items()], on the pair of dictionaries
    [(documents, section_headers)]; [None] when [get_10k_text] raises. *)
Definition scrape_one
    (acc : gmap string (list string) * gmap string (list string))
    (item : string * string)
  : option (gmap string (list string) * gmap string (list string)) :=
  let '(documents, section_headers) := acc in
  let '(company, url) := item in
  '(headers, doc) ← get_10k_text url;
  match doc with
  | [] => Some (documents, section_headers)
  | _ :: _ =>
      let documents := <[company := doc]> documents in
      let section_headers := <[company := headers]> section_headers in
      Some (foldl (repair company) documents headers, section_headers)
  end.

Fixpoint scrape_loop
    (acc : gmap string (list string) * gmap string (list string))
    (items : list (string * string))
  : option (gmap string (list string) * gmap string (list string)) :=
  match items with
  | [] => Some acc
  | item :: rest => acc' ← scrape_one acc item; scrape_loop acc' rest
  end.

(** [urls] is a dictionary, given by its items in insertion order ([tqdm]
    only reports progress).  The function hands back [documents] alone:
    [section_headers] is filled by the loop and then dropped. *)
Definition scrape_edgar (urls : list (string * string))
  : option (gmap string (list string)) :=
  fst <$> scrape_loop (∅, ∅) urls.

End SectionExtractor.

(** ** LemmaFilter: [map_pos_tag] and [lem_and_stem] *)

(** The WordNet part-of-speech constants [wn.NOUN], [wn.ADJ], [wn.VERB],
    [wn.ADV]. *)
Inductive wn_pos := NOUN | ADJ | VERB | ADV.

Global Instance wn_pos_eq_dec : EqDecision wn_pos.
Proof. solve_decision. Defined.

Definition mappings : gmap string wn_pos :=
  {[ "NN" := NOUN; "JJ" := ADJ; "VB" := VERB; "RB" := ADV ]}.

Definition map_pos_tag (pos : string) : wn_pos :=
  let pos := PyStr.take 2 pos in
  match mappings !! pos with
  | Some pos => pos
  | None => NOUN
  end.

Section LemmaFilter.

(** [WordNetLemmatizer().lemmatize] and [PorterStemmer().stem]. *)
Variable lemmatize : string → wn_pos → string.
Variable stem : string → string.

(** The loop body of [lem_and_stem], [processed_text] being the list built
    so far. *)
Definition lem_step (stopwords : gset string) (processed_text : list string)
    (tagged : string * string) : list string :=
  let '(token, pos) := tagged in
  let pos := map_pos_tag pos in
  if negb (bool_decide (pos = NOUN)) then processed_text
  else if bool_decide (token ∉ stopwords) && (3 <? PyStr.len token)%nat then
    let processed_token := stem (lemmatize token pos) in
    if bool_decide (processed_token ∉ stopwords)
    then processed_text ++ [processed_token]
    else processed_text
  else processed_text.

Definition lem_and_stem (text : list (string * string)) (stopwords : gset string)
  : list string :=
  foldl (lem_step stopwords) [] text.

(** The filter in the words of the specification: a tagged token is
    retained when its reduced tag is noun, the raw token is no stopword and
    longer than three characters, and the stem of its lemma is no stopword
    either; it is emitted as that stem. *)
Definition emitted (tagged : string * string) : string :=
  stem (lemmatize (fst tagged) (map_pos_tag (snd tagged))).

Definition retained (stopwords : gset string) (tagged : string * string) : Prop :=
  map_pos_tag (snd tagged) = NOUN
  ∧ (fst tagged ∉ stopwords)
  ∧ 3 < PyStr.len (fst tagged)
  ∧ (emitted tagged ∉ stopwords).

Global Instance retained_dec stopwords tagged : Decision (retained stopwords tagged).
Proof. unfold retained. apply _. Defined.

End LemmaFilter.

(** ** TopicClusterer: [cluster_companies_by_main_topic] *)

(** The exceptions the function can raise. *)
Inductive py_error :=
  | ValueError            (* [max()] of an empty list *)
  | IndexError            (* a list index out of range *)
  | KeyError (key : Z).   (* a topic that is no key of [cluster] *)

Inductive result (A : Type) :=
  | Ok (a : A)
  | Raise (e : py_error).
Arguments Ok {A} a.
Arguments Raise {A} e.

Definition bind {A B} (r : result A) (k : A → result B) : result B :=
  match r with
  | Ok a => k a
  | Raise e => Raise e
  end.

Notation "x <~ r ;; k" := (bind r (λ x, k))
  (at level 100, r at next level, right associativity).

Definition or_raise {A} (e : py_error) (o : option A) : result A :=
  match o with
  | Some a => Ok a
  | None => Raise e
  end.

(** A [for] loop whose body may raise. *)
Fixpoint for_each {S X} (body : S → X → result S) (st : S) (items : list X)
  : result S :=
  match items with
  | [] => Ok st
  | x :: rest => st' <~ body st x;; for_each body st' rest
  end.

(** The comparisons [>] and [==] of the weights. *)
Class PyOrd (W : Type) := {
  py_gt : W → W → bool;
  py_eq : W → W → bool
}.

(** Python floats are binary64 values. *)
Global Instance float_PyOrd : PyOrd float := {
  py_gt x y := PrimFloat.ltb y x;
  py_eq x y := PrimFloat.eqb x y
}.

Section PyList.

Context {W : Type} `{PyOrd W}.

(** An element of a list as an object: the position it was taken from and
    its value. *)
Definition obj : Type := nat * W.

(** [max(ws)] keeps the first element and replaces it by each later one
    that is [>] the current one; [best] is the current one and [i] the
    position of the head of [ws]. *)
Fixpoint py_max_from (best : obj) (i : nat) (ws : list W) : obj :=
  match ws with
  | [] => best
  | w :: ws' => py_max_from (if py_gt w (snd best) then (i, w) else best) (S i) ws'
  end.

Definition py_max (ws : list W) : result obj :=
  match ws with
  | [] => Raise ValueError
  | w :: ws' => Ok (py_max_from (0, w) 1 ws')
  end.

(** [ws.index(x)]: the first position whose element is the object [x] or
    is [==] to it. *)
Fixpoint py_index_from (i : nat) (x : obj) (ws : list W) : result nat :=
  match ws with
  | [] => Raise ValueError
  | w :: ws' =>
      if (i =? fst x)%nat || py_eq w (snd x) then Ok i
      else py_index_from (S i) x ws'
  end.

Definition py_index (x : obj) (ws : list W) : result nat := py_index_from 0 x ws.

(** The weight [w] at position [k] is the maximum of [ws] and [k] is the
    first position that attains it: every earlier weight is below [w] and
    different from it, no later weight is above [w]. *)
Definition first_max_at (ws : list W) (k : nat) (w : W) : Prop :=
  ws !! k = Some w
  ∧ (∀ j w', j < k → ws !! j = Some w' → py_gt w w' = true ∧ py_eq w' w = false)
  ∧ (∀ j w', k < j → ws !! j = Some w' → py_gt w' w = false).

End PyList.

(** [range(n)] *)
Definition range (n : Z) : list Z := Z.of_nat <$> seq 0 (Z.to_nat n).

(** [enumerate(l)] *)
Definition enumerate {A} (l : list A) : list (nat * A) := imap pair l.

Section TopicClusterer.

Context {W : Type} `{PyOrd W}.

(** The documents of the corpus. *)
Variable Doc : Type.

(** [lda[doc]]: the (topic, weight) pairs of the fitted model for [doc]. *)
Variable lda : Doc → list (Z * W).

(** The first loop: an empty bucket for each topic. *)
Definition init_cluster (num_topics : Z) : gmap Z (list string) :=
  foldl (λ cluster i, <[i := []]> cluster) ∅ (range num_topics).

(** The body of the second loop. *)
Definition assign (corpus : list Doc) (cluster : gmap Z (list string))
    (item : nat * string) : result (gmap Z (list string)) :=
  let '(idx, company) := item in
  doc <~ or_raise IndexError (corpus !! idx);;
  let mod_pred := lda doc in
  let weights := snd <$> mod_pred in
  m <~ py_max weights;;
  idx_max <~ py_index m weights;;
  pair <~ or_raise IndexError (mod_pred !! idx_max);;
  let max_topic := fst pair in
  bucket <~ or_raise (KeyError max_topic) (cluster !! max_topic);;
  Ok (<[max_topic := bucket ++ [company]]> cluster).

Definition cluster_companies_by_main_topic (num_topics : Z)
    (corpus : list Doc) (companies : list string)
  : result (gmap Z (list string)) :=
  let cluster := init_cluster num_topics in
  for_each (assign corpus) cluster (enumerate companies).

End TopicClusterer.

(** [result.values()] of the returned dictionary, and the companies in all
    of them. *)
Definition buckets (cluster : gmap Z (list string)) : list (list string) :=
  snd <$> map_to_list cluster.

Definition members (cluster : gmap Z (list string)) : list string :=
  mjoin (buckets cluster).

(** ** TextNormalizer: [format_text] *)

(** The characters the pattern [[^a-zA-Z.?!]] leaves alone. *)
Definition is_kept (c : ascii) : bool :=
  let n := nat_of_ascii c in
  ((97 <=? n)%nat && (n <=? 122)%nat)
  || ((65 <=? n)%nat && (n <=? 90)%nat)
  || Ascii.eqb c "." || Ascii.eqb c "?" || Ascii.eqb c "!".

(** [re.sub(r"[^a-zA-Z.?!]", " ", text)]: every other character becomes a
    space.  (A character outside ASCII is several bytes here and gives
    several spaces where Python gives one; the next substitution merges
    them.) *)
Fixpoint scrub (s : string) : string :=
  match s with
  | EmptyString => EmptyString
  | String c s' => String (if is_kept c then c else " "%char) (scrub s')
  end.

(** [re.sub(r' +', ' ', text)]: every run of spaces becomes one space. *)
Fixpoint squeeze (s : string) : string :=
  match s with
  | EmptyString => EmptyString
  | String c s' =>
      if Ascii.eqb c " " then
        match s' with
        | String c' _ => if Ascii.eqb c' " " then squeeze s' else String c (squeeze s')
        | EmptyString => String c EmptyString
        end
      else String c (squeeze s')
  end.

(** Every character of [s] satisfies [P]. *)
Fixpoint all_chars (P : ascii → bool) (s : string) : bool :=
  match s with
  | EmptyString => true
  | String c s' => P c && all_chars P s'
  end.

(** The letters and sentence marks of [s], in order. *)
Fixpoint kept_chars (s : string) : string :=
  match s with
  | EmptyString => EmptyString
  | String c s' => if is_kept c then String c (kept_chars s') else kept_chars s'
  end.

Section TextNormalizer.

Variable lower : string → string.

(** [nltk.word_tokenize] and [nltk.pos_tag]. *)
Variable word_tokenize : string → list string.
Variable pos_tag : list string → list (string * string).

(** The text handed to the tokenizer: the first three statements of
    [format_text]. *)
Definition clean_text (text : list string) : string :=
  let text := lower (PyStr.join " " text) in
  let text := scrub text in
  squeeze text.

Definition format_text (text : list string) : list (string * string) :=
  let text := clean_text text in
  let text := word_tokenize text in
  pos_tag text.

End TextNormalizer.

(** ** BigramAugmenter: [add_bigrams] *)

Section BigramAugmenter.

(** [Phraser(text, min_count=20)]: the detector built from the collection,
    or [None] when the constructor raises; applied to a document the
    detector returns the document's tokens with detected pairs joined by an
    underscore. *)
Variable Phraser : list (list string) → option (list string → list string).

(** [if '_' in token: text[idx].append(token)] *)
Definition add_token (idx : nat) (text : list (list string)) (token : string)
  : list (list string) :=
  if PyStr.contains "_" token
  then alter (λ doc, doc ++ [token]) idx text
  else text.

(** The body of the loop over [range(len(text))]; [None] stands for the
    [IndexError] of [text[idx]].  The documents are distinct list objects,
    so appending to one leaves the others as they are. *)
Definition add_bigrams_at (bigram : list string → list string)
    (text : list (list string)) (idx : nat) : option (list (list string)) :=
  doc ← text !! idx;
  Some (foldl (add_token idx) text (bigram doc)).

Fixpoint add_bigrams_loop (bigram : list string → list string)
    (text : list (list string)) (indices : list nat) : option (list (list string)) :=
  match indices with
  | [] => Some text
  | idx :: rest => text' ← add_bigrams_at bigram text idx; add_bigrams_loop bigram text' rest
  end.

Definition add_bigrams (text : list (list string)) : option (list (list string)) :=
  bigram ← Phraser text;
  add_bigrams_loop bigram text (seq 0 (length text)).

End BigramAugmenter.

(** ** Node classes of the extractor *)

(** The node is classified as a header: its style is readable and bold. *)
Definition header_node (data : node) : bool :=
  match font_style data with
  | None => false
  | Some style => is_bold style
  end.

(** The node is classified as a paragraph: its style is readable and not
    bold. *)
Definition paragraph_node (data : node) : bool :=
  match font_style data with
  | None => false
  | Some style => negb (is_bold style)
  end.

Set Warnings "-inexact-float".

(** ** Sample inputs *)

Definition bold_node (text : string) : node :=
  Node (Some "font-family:Helvetica,sans-serif;font-size:11pt;font-weight:bold;") text.

Definition plain_node (text : string) : node :=
  Node (Some "font-family:Helvetica,sans-serif;font-size:11pt;") text.

Definition long_bold_text : string :=
  "Our products are sold through a network of independent distributors and resellers in more than forty countries.".

(** One filing with a business section, one page without it, and no other
    page that can be fetched. *)
Definition fetch_example (url : string) : option (list node) :=
  if String.eqb url "https://sec.example/acme" then
    Some [ plain_node "Annual report"; bold_node "Item 1. Business";
           plain_node "We sell software."; bold_node long_bold_text;
           bold_node "Competition"; Node None "stray text";
           bold_node "Item 1A. Risk Factors"; plain_node "Our revenue may decline." ]
  else if String.eqb url "https://sec.example/void" then
    Some [ plain_node "Page not found" ]
  else None.

Definition urls_example : list (string * string) :=
  [ ("ACME", "https://sec.example/acme"); ("VOID", "https://sec.example/void") ].

(** Text outside ASCII, given by the bytes of its UTF-8 encoding. *)
Definition utf8 (bytes : list nat) : string :=
  string_of_list_ascii (ascii_of_nat <$> bytes).

(** The French word for summer: three characters, the first and the last
    being e with acute accent (U+00E9), five bytes. *)
Definition summer_fr : string := utf8 [195; 169] +:+ "t" +:+ utf8 [195; 169].

(** A bold line of exactly 100 characters and 106 bytes: it has two
    no-break spaces (U+00A0), an en dash (U+2013) and a right single
    quotation mark (U+2019). *)
Definition hundred_chars : string :=
  "Business" +:+ utf8 [194; 160] +:+ utf8 [226; 128; 147] +:+ utf8 [194; 160]
  +:+ "Products" +:+ utf8 [226; 128; 153] +:+ " markets "
  +:+ "xxxxxxxxxxxxxxxxxxxxxxxxxxxxxxxxxxxxxxxxxxxxxxxxxxxxxxxxxxxxxxxxxxxxxxx".

Definition fetch_hundred (url : string) : option (list node) :=
  Some [ bold_node hundred_chars; plain_node "p1" ].

(** The model of the end-to-end example of the specification. *)
Definition lda_example (doc : string) : list (Z * float) :=
  if String.eqb doc "doc A" then [(0%Z, 0.1%float); (1%Z, 0.9%float)]
  else [(0%Z, 0.8%float); (1%Z, 0.2%float)].

(** A model with a tie between topics 1 and 2. *)
Definition lda_tie (doc : string) : list (Z * float) :=
  [(0%Z, 0.25%float); (1%Z, 0.5%float); (2%Z, 0.5%float)].

(** A model that has no topic for one document. *)
Definition lda_gap (doc : string) : list (Z * float) :=
  if String.eqb doc "doc B" then [] else [(0%Z, 1.0%float)].

(** * Properties *)

(** ** Splitting and joining *)

Section StringFacts.

Import PyStr.

Lemma split_nonempty sep s : split sep s ≠ [].
Proof. destruct s as [|c s]; simpl; [done|]. by destruct (Ascii.eqb c sep), (split sep s). Qed.

Lemma split_cons_sep sep s : split sep (String sep s) = EmptyString :: split sep s.
Proof. simpl. by rewrite Ascii.eqb_refl. Qed.

Lemma split_cons_other sep c s :
  c ≠ sep →
  split sep (String c s) = String c (hd EmptyString (split sep s)) :: tl (split sep s).
Proof.
  intros Hc. simpl. destruct (Ascii.eqb_spec c sep) as [->|_]; [done|].
  destruct (split sep s) eqn:E; [by apply split_nonempty in E|done].
Qed.

Lemma join_cons sep p ps :
  ps ≠ [] → join sep (p :: ps) = p +:+ String sep (join sep ps).
Proof. by destruct ps. Qed.

Lemma join_split sep s : join sep (split sep s) = s.
Proof.
  induction s as [|c s IH]; [done|].
  destruct (Ascii.eqb_spec c sep) as [->|Hc].
  - rewrite split_cons_sep, join_cons by apply split_nonempty.
    simpl. by rewrite IH.
  - rewrite split_cons_other by done.
    pose proof (split_nonempty sep s) as Hne.
    destruct (split sep s) as [|p ps]; [done|]. simpl in *.
    destruct ps; simpl in *; by rewrite <- IH.
Qed.

Lemma split_pieces sep s : Forall (λ piece, count sep piece = 0) (split sep s).
Proof.
  induction s as [|c s IH]; [by repeat constructor|].
  destruct (Ascii.eqb_spec c sep) as [->|Hc].
  - rewrite split_cons_sep. by constructor.
  - rewrite split_cons_other by done.
    pose proof (split_nonempty sep s) as Hne.
    destruct (split sep s) as [|p ps]; [done|]. simpl.
    inversion IH; subst. constructor; [|done]. simpl.
    by destruct (Ascii.eqb_spec c sep).
Qed.

Lemma length_split sep s : length (split sep s) = S (count sep s).
Proof.
  induction s as [|c s IH]; [done|].
  destruct (Ascii.eqb_spec c sep) as [->|Hc].
  - rewrite split_cons_sep. simpl. by rewrite Ascii.eqb_refl, IH.
  - rewrite split_cons_other by done.
    pose proof (split_nonempty sep s) as Hne.
    destruct (split sep s) as [|p ps]; [done|]. simpl in *.
    by destruct (Ascii.eqb_spec c sep).
Qed.

Lemma split_sep_free sep s : count sep s = 0 → split sep s = [s].
Proof.
  induction s as [|c s IH]; [done|]. simpl.
  destruct (Ascii.eqb_spec c sep) as [->|Hc]; [done|].
  intros Hs. by rewrite IH.
Qed.

Lemma split_app sep k v :
  count sep k = 0 → split sep (k +:+ String sep v) = k :: split sep v.
Proof.
  induction k as [|c k IH]; simpl.
  - by rewrite Ascii.eqb_refl.
  - destruct (Ascii.eqb_spec c sep) as [->|Hc]; [done|].
    intros Hk. by rewrite IH.
Qed.

(** A string splits into exactly two parts iff it is the two parts around
    one separator. *)
Lemma split_two sep s k v :
  split sep s = [k; v] ↔
  s = k +:+ String sep v ∧ count sep k = 0 ∧ count sep v = 0.
Proof.
  split.
  - intros Hs. pose proof (join_split sep s) as Hj.
    pose proof (split_pieces sep s) as Hp. rewrite Hs in Hj, Hp.
    simpl in Hj. apply Forall_cons in Hp as [Hk Hp].
    apply Forall_cons in Hp as [Hv _]. by rewrite Hj.
  - intros (-> & Hk & Hv). by rewrite split_app, split_sep_free.
Qed.

Lemma split_two_count sep s :
  (∃ k v, split sep s = [k; v]) ↔ count sep s = 1.
Proof.
  pose proof (length_split sep s) as Hl. split.
  - intros (k & v & Hs). rewrite Hs in Hl. simpl in Hl. lia.
  - intros Hc. rewrite Hc in Hl.
    destruct (split sep s) as [|k [|v [|? ?]]]; simpl in Hl; try lia. eauto.
Qed.

(** [len] counts at most the bytes, and exactly the bytes of ASCII text. *)
Lemma len_le_length s : len s ≤ String.length s.
Proof.
  induction s as [|c s IH]; simpl; [done|].
  destruct (is_continuation c); simpl; lia.
Qed.

Lemma len_ascii s :
  all_below_128 s = true → len s = String.length s.
Proof.
  induction s as [|c s IH]; simpl; [done|].
  intros [Hc Hs]%andb_true_iff. rewrite IH by done.
  unfold is_continuation. apply Nat.ltb_lt in Hc.
  destruct (Nat.leb_spec 128 (nat_of_ascii c)); [lia|done].
Qed.

End StringFacts.

(** ** AttributeParser *)

Lemma store_pair_two result key value :
  store_pair result [key; value] = <[key := value]> result.
Proof. done. Qed.

Lemma store_pair_other result pair :
  length pair ≠ 2 → store_pair result pair = result.
Proof. by destruct pair as [|? [|? [|? ?]]]. Qed.

(** What the loop of [convert_attr_to_dict] leaves under [key]: the second
    part of the last pair whose first part is [key]. *)
Lemma store_pairs_lookup (pairs : list (list string)) key value :
  foldl store_pair ∅ pairs !! key = Some value ↔
  ∃ before after,
    pairs = before ++ [key; value] :: after ∧
    ∀ value', [key; value'] ∉ after.
Proof.
  revert value. induction pairs as [|pair pairs IH] using rev_ind; intros value.
  { simpl. rewrite lookup_empty. split; [done|]. intros (before & after & Hp & _).
    by destruct before. }
  rewrite foldl_snoc.
  assert (Hlast : ∀ before (p : list string) after,
    pairs ++ [pair] = before ++ p :: after →
    (after = [] ∧ before = pairs ∧ p = pair) ∨
    (∃ after', after = after' ++ [pair] ∧ pairs = before ++ p :: after')).
  { intros before p after Heq.
    induction after as [|a after _] using rev_ind.
    - left. by apply app_inj_tail in Heq as [<- <-].
    - right. exists after. rewrite app_comm_cons, app_assoc in Heq.
      apply app_inj_tail in Heq as [-> ->]. done. }
  assert (Hcase : (∃ v, pair = [key; v]) ∨ ¬ ∃ v, pair = [key; v]).
  { destruct pair as [|k [|v [|? ?]]]; try (right; by intros [? ?]).
    destruct (decide (k = key)) as [->|Hk]; [left; eauto|right; intros [? [= ? ?]]; done]. }
  destruct Hcase as [[v ->]|Hno].
  - rewrite store_pair_two, lookup_insert_eq. split.
    + intros [= ->]. exists pairs, []. split; [done|]. intros ?. apply not_elem_of_nil.
    + intros (before & after & Heq & Hafter).
      apply Hlast in Heq as [(-> & -> & [= ->])|(after' & -> & _)]; [done|].
      exfalso. apply (Hafter v). apply elem_of_app. right. apply list_elem_of_singleton. done.
  - assert (Hstep : store_pair (foldl store_pair ∅ pairs) pair !! key
                    = foldl store_pair ∅ pairs !! key).
    { destruct pair as [|k [|v [|? ?]]]; try done.
      rewrite store_pair_two, lookup_insert_ne; [done|].
      intros ->. apply Hno. eauto. }
    rewrite Hstep, IH. split.
    + intros (before & after & -> & Hafter).
      exists before, (after ++ [pair]). split; [by rewrite <- app_assoc|].
      intros value' [Hin|Hin%list_elem_of_singleton]%elem_of_app.
      * by apply (Hafter value').
      * apply Hno. eauto.
    + intros (before & after & Heq & Hafter).
      apply Hlast in Heq as [(-> & -> & <-)|(after' & -> & ->)].
      * exfalso. apply Hno. eauto.
      * exists before, after'. split; [done|].
        intros value' Hin. apply (Hafter value'). apply elem_of_app. by left.
Qed.

(** C7. [convert_attr_to_dict] cuts its argument at every [;]; an entry
    [key ↦ value] is in the result exactly when some segment is literally
    [key:value] with no further colon (nothing is trimmed) and no later
    segment binds [key] again; a segment whose number of colons is not one
    changes nothing; the empty string gives the empty dictionary. *)
Theorem convert_attr_to_dict_spec (attr : string) :
  PyStr.join ";" (PyStr.split ";" attr) = attr ∧
  Forall (λ seg, PyStr.count ";" seg = 0) (PyStr.split ";" attr) ∧
  (∀ key value,
     convert_attr_to_dict attr !! key = Some value ↔
     ∃ before after,
       PyStr.split ";" attr = before ++ (key +:+ ":" +:+ value) :: after ∧
       PyStr.count ":" key = 0 ∧ PyStr.count ":" value = 0 ∧
       ∀ value', PyStr.count ":" value' = 0 → (key +:+ ":" +:+ value') ∉ after) ∧
  (∀ seg, seg ∈ PyStr.split ";" attr →
     (∃ key value, PyStr.split ":" seg = [key; value]) ↔ PyStr.count ":" seg = 1) ∧
  (∀ result seg,
     PyStr.count ":" seg ≠ 1 → store_pair result (PyStr.split ":" seg) = result) ∧
  convert_attr_to_dict "" = ∅ ∧
  convert_attr_to_dict "font-weight:bold;bad;font-size:11pt"
    = {[ "font-weight" := "bold"; "font-size" := "11pt" ]}.
Proof.
  split; [apply join_split|]. split; [apply split_pieces|].
  split; [|split; [|split; [|split]]].
  - intros key value. unfold convert_attr_to_dict.
    rewrite store_pairs_lookup. split.
    + intros (before & after & Heq & Hafter).
      apply fmap_app_inv in Heq as (segs1 & segs2 & -> & Heq & ->).
      symmetry in Heq.
      apply fmap_cons_inv in Heq as (seg & segs3 & Hseg & -> & ->).
      symmetry in Hseg. apply split_two in Hseg as (-> & Hk & Hv).
      exists segs1, segs3. repeat split; try done.
      intros value' Hv' Hin. apply (Hafter value').
      apply list_elem_of_fmap. eexists. split; [|exact Hin].
      symmetry. by apply split_two.
    + intros (before & after & -> & Hk & Hv & Hafter).
      exists (PyStr.split ":" <$> before), (PyStr.split ":" <$> after). split.
      * rewrite fmap_app, fmap_cons. do 2 f_equal. by apply split_two.
      * intros value' (seg & Hseg & Hin)%list_elem_of_fmap.
        symmetry in Hseg. apply split_two in Hseg as (-> & _ & Hv').
        by apply (Hafter value').
  - intros seg _. apply split_two_count.
  - intros result seg Hc. apply store_pair_other.
    rewrite length_split. lia.
  - done.
  - vm_compute. reflexivity.
Qed.

(** ** SectionExtractor *)

Section SectionExtractorFacts.

Variable lower : string → string.

Lemma visit_end_marker st data :
  bold_with lower "risk factors" data = true →
  ∃ st', visit lower st data = Break st'
         ∧ headers st' = headers st ∧ paragraphs st' = paragraphs st.
Proof.
  unfold bold_with, visit. destruct (font_style data) as [style|]; [|done].
  intros [-> ->]%andb_true_iff.
  destruct (PyStr.contains "business" (lower (text data))); eauto.
Qed.

Lemma visit_no_end_marker st data :
  bold_with lower "risk factors" data = false →
  ∃ st', visit lower st data = Continue st'.
Proof.
  unfold bold_with, visit. destruct (font_style data) as [style|]; [|eauto].
  destruct (is_bold style); simpl.
  - intros ->.
    destruct (PyStr.contains "business" (lower (text data))); simpl; eauto.
    destruct (start_recording st); eauto.
  - intros _. destruct (start_recording st); eauto.
Qed.

(** Without an end marker the loop runs through. *)
Lemma walk_app st body rest :
  Forall (λ data, bold_with lower "risk factors" data = false) body →
  walk lower st (body ++ rest) = walk lower (walk lower st body) rest.
Proof.
  intros Hbody. revert st. induction Hbody as [|data body Hdata _ IH]; intros st; [done|].
  simpl. destruct (visit_no_end_marker st data Hdata) as [st' ->]. apply IH.
Qed.

(** What the loop has recorded is never taken back. *)
Lemma visit_grows st data :
  headers st `prefix_of` headers (flow_state (visit lower st data)) ∧
  paragraphs st `prefix_of` paragraphs (flow_state (visit lower st data)).
Proof.
  unfold visit. destruct (font_style data) as [style|]; [|done].
  destruct (is_bold style), (PyStr.contains "business" (lower (text data))),
    (PyStr.contains "risk factors" (lower (text data))),
    (start_recording st); simpl; split; try done; by apply prefix_app_r.
Qed.

Lemma walk_grows st body :
  headers st `prefix_of` headers (walk lower st body) ∧
  paragraphs st `prefix_of` paragraphs (walk lower st body).
Proof.
  revert st. induction body as [|data body IH]; intros st; [done|]. simpl.
  pose proof (visit_grows st data) as [Hh Hp].
  destruct (visit lower st data) as [st'|st']; simpl in *; [|done].
  destruct (IH st') as [Hh' Hp']. split; by etrans.
Qed.

(** C5. At the first bold node whose lowered text contains "risk factors"
    the loop stops: the iteration breaks with the headers and paragraphs it
    had on entry, whether or not it was recording, and the outcome for the
    whole body is the outcome for the nodes before that one, whatever comes
    after it. *)
Theorem risk_factors_stops (before : list node) (data : node) (after : list node) :
  Forall (λ earlier, bold_with lower "risk factors" earlier = false) before →
  bold_with lower "risk factors" data = true →
  (∀ st, ∃ st', visit lower st data = Break st'
                ∧ headers st' = headers st ∧ paragraphs st' = paragraphs st) ∧
  extract_section lower (before ++ data :: after) = extract_section lower before.
Proof.
  intros Hbefore Hdata. split; [intros st; by apply visit_end_marker|].
  unfold extract_section. rewrite walk_app by done. simpl.
  destruct (visit_end_marker (walk lower (Extraction [] [] false) before) data Hdata)
    as (st' & -> & -> & ->). done.
Qed.

(** C10. A bold node whose lowered text contains "business" and not
    "risk factors" switches recording on and is itself appended to the
    headers, in whatever state the loop meets it; if no end marker comes
    before it, its text is among the headers returned for the body. *)
Theorem business_header_recorded (data : node) :
  bold_with lower "business" data = true →
  bold_with lower "risk factors" data = false →
  (∀ st, visit lower st data
         = Continue (Extraction (headers st ++ [text data]) (paragraphs st) true)) ∧
  (∀ before after,
     Forall (λ earlier, bold_with lower "risk factors" earlier = false) before →
     text data ∈ (extract_section lower (before ++ data :: after)).1).
Proof.
  unfold bold_with. intros Hstart Hend.
  assert (Hvisit : ∀ st, visit lower st data
    = Continue (Extraction (headers st ++ [text data]) (paragraphs st) true)).
  { intros st. unfold visit. destruct (font_style data) as [style|]; [|done].
    apply andb_true_iff in Hstart as [Hbold Hbusiness].
    rewrite Hbold in *. simpl in Hend. by rewrite Hbusiness, Hend. }
  split; [done|]. intros before after Hbefore.
  unfold extract_section. rewrite walk_app by done. simpl. rewrite Hvisit.
  match goal with |- _ ∈ headers (walk lower ?st after) =>
    destruct (walk_grows st after) as [Hh _] end.
  simpl in *. eapply elem_of_prefix; [|exact Hh].
  apply elem_of_app. right. by apply list_elem_of_singleton.
Qed.

End SectionExtractorFacts.

Lemma risk_factors_stops_witness :
  extract_section PyStr.ascii_lower
    ([plain_node "Annual report"; bold_node "Item 1. Business"; plain_node "We sell software."]
       ++ bold_node "Item 1A. RISK FACTORS" :: [plain_node "Our revenue may decline."])
  = (["Item 1. Business"], ["We sell software."]).
Proof.
  refine (eq_trans (proj2 (risk_factors_stops PyStr.ascii_lower _ _ _ _ _)) _).
  - repeat constructor.
  - reflexivity.
  - reflexivity.
Defined.

Lemma business_header_recorded_witness :
  visit PyStr.ascii_lower (Extraction [] [] false) (bold_node "Item 1. BUSINESS")
  = Continue (Extraction ["Item 1. BUSINESS"] [] true).
Proof.
  refine (proj1 (business_header_recorded PyStr.ascii_lower _ _ _) _); reflexivity.
Defined.

(** ** LemmaFilter *)

Lemma map_pos_tag_cases pos :
  map_pos_tag pos =
    if decide (PyStr.take 2 pos = "JJ") then ADJ
    else if decide (PyStr.take 2 pos = "VB") then VERB
    else if decide (PyStr.take 2 pos = "RB") then ADV
    else NOUN.
Proof.
  unfold map_pos_tag, mappings.
  repeat case_decide;
    repeat match goal with H : PyStr.take 2 pos = _ |- _ => rewrite H; clear H end;
    try done.
  destruct (decide (PyStr.take 2 pos = "NN")) as [->|?]; [done|].
  rewrite !lookup_insert_ne by done. by rewrite lookup_singleton_ne.
Qed.

Section LemmaFilterFacts.

Variable lemmatize : string → wn_pos → string.
Variable stem : string → string.

Lemma lem_step_spec stopwords processed_text tagged :
  lem_step lemmatize stem stopwords processed_text tagged =
    processed_text ++
      (if decide (retained lemmatize stem stopwords tagged)
       then [emitted lemmatize stem tagged] else []).
Proof.
  destruct tagged as [token pos]. unfold lem_step.
  destruct (decide (retained lemmatize stem stopwords (token, pos)))
    as [(Hpos & Htok & Hlen & Hst)|Hno]; unfold emitted in *; simpl in *.
  - rewrite (bool_decide_eq_true_2 _ Hpos), (bool_decide_eq_true_2 _ Htok),
      (bool_decide_eq_true_2 _ Hst).
    apply Nat.ltb_lt in Hlen. by rewrite Hlen.
  - rewrite app_nil_r.
    destruct (decide (map_pos_tag pos = NOUN)) as [Hpos|Hpos];
      [rewrite (bool_decide_eq_true_2 _ Hpos)
      |by rewrite (bool_decide_eq_false_2 _ Hpos)].
    simpl. repeat case_bool_decide; simpl; try done;
      destruct (Nat.ltb_spec 3 (PyStr.len token)) as [Hlen|Hlen]; try done.
    exfalso. apply Hno. by repeat split.
Qed.

Lemma lem_loop_spec stopwords processed_text text :
  foldl (lem_step lemmatize stem stopwords) processed_text text =
    processed_text ++
      (emitted lemmatize stem <$> filter (retained lemmatize stem stopwords) text).
Proof.
  revert processed_text. induction text as [|tagged text IH]; intros processed_text.
  - simpl. by rewrite app_nil_r.
  - simpl. rewrite IH, lem_step_spec, filter_cons.
    destruct (decide (retained lemmatize stem stopwords tagged)).
    + by rewrite fmap_cons, <- app_assoc.
    + by rewrite app_nil_r.
Qed.

(** C2. [lem_and_stem] returns, in input order, the stemmed lemmas of
    exactly the tagged tokens that are retained: reduced tag noun, raw token
    no stopword and longer than three characters, stemmed lemma no stopword.
    The reduced tag is noun unless the first two characters of the tag are
    JJ, VB or RB, so an unknown tag counts as a noun.  The length is that
    of [len]: a noun of three accented characters is dropped although it
    takes five bytes. *)
Theorem lem_and_stem_spec (text : list (string * string)) (stopwords : gset string) :
  lem_and_stem lemmatize stem text stopwords
    = emitted lemmatize stem <$> filter (retained lemmatize stem stopwords) text
  ∧ (∀ pos, map_pos_tag pos = NOUN ↔ PyStr.take 2 pos ∉ ["JJ"; "VB"; "RB"])
  ∧ (∀ pos, PyStr.take 2 pos ∉ ["NN"; "JJ"; "VB"; "RB"] → map_pos_tag pos = NOUN)
  ∧ (stem (lemmatize "company" NOUN) = "compani" →
     lem_and_stem lemmatize stem [("running", "VB"); ("company", "NN")] {["the"]}
       = ["compani"])
  ∧ lem_and_stem lemmatize stem [(summer_fr, "NN")] ∅ = [].
Proof.
  split; [apply lem_loop_spec|]. split; [|split; [|split]].
  - intros pos. rewrite map_pos_tag_cases. rewrite !not_elem_of_cons.
    repeat case_decide; split; try done; try tauto.
    intros _. repeat split; try done. apply not_elem_of_nil.
  - intros pos Hpos. rewrite map_pos_tag_cases.
    rewrite !not_elem_of_cons in Hpos.
    repeat case_decide; try done; tauto.
  - intros Hstem. unfold lem_and_stem. simpl. unfold lem_step. simpl.
    change (map_pos_tag "VB") with VERB. change (map_pos_tag "NN") with NOUN.
    simpl. rewrite Hstem.
    by rewrite !bool_decide_eq_true_2 by set_solver.
  - unfold lem_and_stem. simpl. unfold lem_step.
    change (map_pos_tag "NN") with NOUN.
    change (PyStr.len summer_fr) with 3. simpl.
    by rewrite andb_false_r.
Qed.

End LemmaFilterFacts.

(** ** [max] and [index] *)

Section PyListFacts.

Context {W : Type} `{PyOrd W}.

(** [max] returns an element of the list, as the object it is. *)
Lemma py_max_from_lookup (pre ws : list W) (best : obj) :
  (pre ++ ws) !! fst best = Some (snd best) →
  (pre ++ ws) !! fst (py_max_from best (length pre) ws)
    = Some (snd (py_max_from best (length pre) ws)).
Proof.
  revert pre best. induction ws as [|w ws IH]; intros pre best Hbest; [done|].
  simpl. specialize (IH (pre ++ [w])).
  rewrite <- app_assoc, length_app, Nat.add_1_r in IH. simpl in IH.
  apply IH. destruct (py_gt w (snd best)); [|done].
  simpl. by rewrite list_lookup_middle.
Qed.

Lemma py_max_lookup (ws : list W) :
  ws ≠ [] → ∃ m, py_max ws = Ok m ∧ ws !! fst m = Some (snd m).
Proof.
  destruct ws as [|w ws]; [done|]. intros _. eexists. split; [done|].
  apply (py_max_from_lookup [w] ws (0, w)). done.
Qed.

(** [index] finds an object that is in the list, at its position or before. *)
Lemma py_index_from_found (pre ws : list W) (x : obj) :
  length pre ≤ fst x →
  (pre ++ ws) !! fst x = Some (snd x) →
  ∃ k, py_index_from (length pre) x ws = Ok k ∧ length pre ≤ k ≤ fst x.
Proof.
  revert pre. induction ws as [|w ws IH]; intros pre Hle Hx.
  - rewrite app_nil_r in Hx. apply lookup_lt_Some in Hx. lia.
  - simpl. destruct (Nat.eqb_spec (length pre) (fst x)) as [Heq|Hne]; simpl.
    + exists (length pre). split; [done|lia].
    + destruct (py_eq w (snd x)).
      * exists (length pre). split; [done|lia].
      * specialize (IH (pre ++ [w])).
        rewrite <- app_assoc, length_app, Nat.add_1_r in IH. simpl in IH.
        destruct IH as (k & Hk & Hrange); [lia|done|].
        exists k. split; [done|lia].
Qed.

Lemma py_index_found (ws : list W) (x : obj) :
  ws !! fst x = Some (snd x) → ∃ k, py_index x ws = Ok k ∧ k ≤ fst x.
Proof.
  intros Hx. destruct (py_index_from_found [] ws x) as (k & Hk & Hle);
    [simpl; lia|done|]. exists k. split; [done|lia].
Qed.

Lemma py_max_from_first_max (pre ws : list W) (best : obj) k w :
  first_max_at (pre ++ ws) k w →
  (k < length pre ∧ best = (k, w))
  ∨ (length pre ≤ k ∧ fst best < k ∧ (pre ++ ws) !! fst best = Some (snd best)) →
  py_max_from best (length pre) ws = (k, w).
Proof.
  revert pre best. induction ws as [|w0 ws IH]; intros pre best Hmax Hbest.
  - destruct Hmax as (Hk & _). rewrite app_nil_r in Hk.
    apply lookup_lt_Some in Hk. destruct Hbest as [[_ ->]|[? _]]; [done|lia].
  - simpl. specialize (IH (pre ++ [w0])).
    rewrite <- app_assoc, length_app, Nat.add_1_r in IH. simpl in IH.
    apply IH; [done|]. destruct Hmax as (Hk & Hbefore & Hafter).
    destruct Hbest as [[Hlt ->]|(Hle & Hlt & Hbest)].
    + left. split; [lia|]. simpl.
      rewrite (Hafter (length pre) w0); [done|lia|by rewrite list_lookup_middle].
    + destruct (decide (length pre = k)) as [<-|Hne].
      * left. split; [lia|]. rewrite list_lookup_middle in Hk by done.
        injection Hk as ->.
        destruct (Hbefore (fst best) (snd best)) as [-> _]; done.
      * right. split; [lia|]. destruct (py_gt w0 (snd best)); simpl.
        -- split; [lia|]. by rewrite list_lookup_middle.
        -- done.
Qed.

Lemma py_max_first_max (ws : list W) k w :
  first_max_at ws k w → py_max ws = Ok (k, w).
Proof.
  intros Hmax. destruct ws as [|w0 ws].
  { by destruct Hmax as (? & _). }
  simpl. f_equal. apply (py_max_from_first_max [w0] ws); [done|].
  destruct k as [|k].
  - left. destruct Hmax as ([= ->] & _). simpl. split; [lia|done].
  - right. simpl. repeat split; [lia|lia].
Qed.

Lemma py_index_from_first_max (pre ws : list W) k w :
  first_max_at (pre ++ ws) k w →
  length pre ≤ k →
  py_index_from (length pre) (k, w) ws = Ok k.
Proof.
  revert pre. induction ws as [|w0 ws IH]; intros pre Hmax Hle.
  - destruct Hmax as (Hk & _). rewrite app_nil_r in Hk.
    apply lookup_lt_Some in Hk. lia.
  - simpl. destruct (Nat.eqb_spec (length pre) k) as [->|Hne]; [done|]. simpl.
    destruct Hmax as (Hk & Hbefore & Hafter).
    destruct (Hbefore (length pre) w0) as [_ ->];
      [lia|by rewrite list_lookup_middle|].
    specialize (IH (pre ++ [w0])).
    rewrite <- app_assoc, length_app, Nat.add_1_r in IH. simpl in IH.
    apply IH; [done|lia].
Qed.

Lemma py_index_first_max (ws : list W) k w :
  first_max_at ws k w → py_index (k, w) ws = Ok k.
Proof. intros Hmax. apply (py_index_from_first_max [] ws); [done|simpl; lia]. Qed.

(** When [>] is asymmetric and two weights that are not [==] are ordered
    one way or the other, as for floats other than NaN, [first_max_at] is
    the usual notion: nothing in the list is above [w], and [k] is the first
    position holding a weight [==] to [w]. *)
Lemma first_max_at_total_order (ws : list W) k w :
  (∀ a b : W, py_gt a b = true → py_gt b a = false) →
  (∀ a b : W, py_gt a b = false → py_eq a b = false → py_gt b a = true) →
  first_max_at ws k w ↔
    ws !! k = Some w
    ∧ (∀ j w', ws !! j = Some w' → py_gt w' w = false)
    ∧ (∀ j w', j < k → ws !! j = Some w' → py_eq w' w = false).
Proof.
  intros Hasym Htotal. unfold first_max_at. split.
  - intros (Hk & Hbefore & Hafter). split; [done|]. split.
    + intros j w' Hj. destruct (lt_eq_lt_dec j k) as [[Hlt| ->]|Hgt].
      * apply Hasym. by apply (Hbefore j).
      * rewrite Hk in Hj. injection Hj as <-.
        destruct (py_gt w w) eqn:Hww; [|done]. by rewrite (Hasym w w Hww) in Hww.
      * by apply (Hafter j).
    + intros j w' Hlt Hj. by apply (Hbefore j).
  - intros (Hk & Hmax & Hfirst). split; [done|]. split.
    + intros j w' Hlt Hj. split; [|by apply (Hfirst j)].
      apply Htotal; [by apply (Hmax j)|by apply (Hfirst j)].
    + intros j w' _ Hj. by apply (Hmax j).
Qed.

End PyListFacts.

(** ** Loops that may raise *)

Lemma for_each_app {S X} (body : S → X → result S) st (items rest : list X) :
  for_each body st (items ++ rest)
    = (st' <~ for_each body st items;; for_each body st' rest).
Proof.
  revert st. induction items as [|x items IH]; intros st; [done|].
  simpl. destruct (body st x); simpl; [apply IH|done].
Qed.

Lemma for_each_snoc {S X} (body : S → X → result S) st (items : list X) x :
  for_each body st (items ++ [x])
    = (st' <~ for_each body st items;; body st' x).
Proof.
  rewrite for_each_app. destruct (for_each body st items) as [st'|]; [|done].
  simpl. by destruct (body st' x).
Qed.

Lemma enumerate_app {A} (l1 l2 : list A) :
  enumerate (l1 ++ l2) = enumerate l1 ++ imap (λ i, pair (length l1 + i)) l2.
Proof. apply imap_app. Qed.

Lemma enumerate_snoc {A} (l : list A) x :
  enumerate (l ++ [x]) = enumerate l ++ [(length l, x)].
Proof. rewrite enumerate_app. simpl. by rewrite Nat.add_0_r. Qed.

Lemma elem_of_range n t : t ∈ range n ↔ (0 ≤ t < n)%Z.
Proof.
  unfold range. rewrite list_elem_of_fmap. split.
  - intros (i & -> & Hi%elem_of_seq). lia.
  - intros Ht. exists (Z.to_nat t). split; [lia|]. apply elem_of_seq. lia.
Qed.

(** ** TopicClusterer *)

Section TopicClustererFacts.

Context {W : Type} `{PyOrd W}.
Variable Doc : Type.
Variable lda : Doc → list (Z * W).

Lemma init_loop_lookup (topics : list Z) (cluster : gmap Z (list string)) t :
  foldl (λ cluster i, <[i := []]> cluster) cluster topics !! t
    = if decide (t ∈ topics) then Some [] else cluster !! t.
Proof.
  revert cluster. induction topics as [|i topics IH]; intros cluster; [done|].
  simpl. rewrite IH. destruct (decide (t ∈ topics)) as [Hin|Hin].
  - rewrite decide_True; [done|]. by right.
  - destruct (decide (i = t)) as [->|Hne].
    + rewrite lookup_insert_eq, decide_True; [done|]. by left.
    + rewrite lookup_insert_ne by done. rewrite decide_False; [done|].
      intros [?|?]%elem_of_cons; congruence.
Qed.

(** The first loop: exactly the topics [0 .. num_topics - 1] get a bucket,
    and it is empty. *)
Lemma init_cluster_lookup num_topics t :
  init_cluster num_topics !! t
    = if decide (0 ≤ t < num_topics)%Z then Some [] else None.
Proof.
  unfold init_cluster. rewrite init_loop_lookup, lookup_empty.
  destruct (decide (t ∈ range num_topics)) as [Hin|Hin];
    rewrite elem_of_range in Hin; [by rewrite decide_True|by rewrite decide_False].
Qed.

Lemma init_cluster_members num_topics : members (init_cluster num_topics) = [].
Proof.
  unfold members, buckets.
  assert (Hall : Forall (λ bucket, bucket = [])
                   (snd <$> map_to_list (init_cluster num_topics))).
  { apply Forall_fmap, Forall_forall. intros [t bucket] Hin. simpl.
    apply elem_of_map_to_list in Hin. rewrite init_cluster_lookup in Hin.
    case_decide; congruence. }
  induction Hall as [|bucket rest -> _ IH]; [done|]. simpl. exact IH.
Qed.

(** The second loop body puts the company into one existing bucket, the one
    of a topic the model returned for its document. *)
Lemma assign_ok (corpus : list Doc) cluster idx company doc :
  corpus !! idx = Some doc →
  lda doc ≠ [] →
  (∀ t w, (t, w) ∈ lda doc → is_Some (cluster !! t)) →
  ∃ t w bucket,
    (t, w) ∈ lda doc ∧ cluster !! t = Some bucket ∧
    assign Doc lda corpus cluster (idx, company)
      = Ok (<[t := bucket ++ [company]]> cluster).
Proof.
  intros Hdoc Hne Hkeys. unfold assign. rewrite Hdoc. simpl.
  destruct (py_max_lookup (snd <$> lda doc)) as (m & -> & Hm).
  { intros Hnil. apply fmap_nil_inv in Hnil. done. }
  simpl. destruct (py_index_found _ m Hm) as (k & -> & Hk). simpl.
  assert (Hlt : k < length (lda doc)).
  { apply lookup_lt_Some in Hm. rewrite length_fmap in Hm. lia. }
  apply lookup_lt_is_Some in Hlt as [[t w] Hpair]. rewrite Hpair. simpl.
  assert (Hin : (t, w) ∈ lda doc) by (by eapply list_elem_of_lookup_2).
  destruct (Hkeys t w Hin) as [bucket Hbucket]. rewrite Hbucket. simpl.
  by exists t, w, bucket.
Qed.

(** Appending to one bucket adds that company to the members and leaves the
    keys as they are. *)
Lemma members_append (cluster : gmap Z (list string)) t bucket company :
  cluster !! t = Some bucket →
  members (<[t := bucket ++ [company]]> cluster) ≡ₚ members cluster ++ [company].
Proof.
  intros Hbucket. unfold members, buckets.
  rewrite <- (insert_delete_eq cluster t (bucket ++ [company])).
  rewrite <- (insert_delete_id cluster t bucket Hbucket) at 2.
  rewrite !map_to_list_insert by apply lookup_delete_eq.
  simpl. rewrite <- !app_assoc. apply Permutation_app_head.
  apply Permutation_app_comm.
Qed.

Lemma cluster_loop_ok num_topics (corpus : list Doc) companies :
  length companies ≤ length corpus →
  (∀ doc, doc ∈ corpus →
     lda doc ≠ [] ∧ ∀ t w, (t, w) ∈ lda doc → (0 ≤ t < num_topics)%Z) →
  ∃ cluster,
    cluster_companies_by_main_topic Doc lda num_topics corpus companies = Ok cluster
    ∧ (∀ t, is_Some (cluster !! t) ↔ (0 ≤ t < num_topics)%Z)
    ∧ members cluster ≡ₚ companies.
Proof.
  intros Hlen Hlda. unfold cluster_companies_by_main_topic.
  induction companies as [|company companies IH] using rev_ind.
  - exists (init_cluster num_topics). split; [done|]. split.
    + intros t. rewrite init_cluster_lookup.
      case_decide; split; intros Ht;
        first [done | by eauto | by destruct Ht as [? ?]].
    + by rewrite init_cluster_members.
  - rewrite length_app in Hlen. simpl in Hlen.
    destruct IH as (cluster & Hrun & Hkeys & Hmembers); [lia|].
    rewrite enumerate_snoc, for_each_snoc, Hrun. cbn [bind].
    destruct (lookup_lt_is_Some_2 corpus (length companies)) as [doc Hdoc]; [lia|].
    destruct (Hlda doc) as [Hne Htopics]; [by eapply list_elem_of_lookup_2|].
    destruct (assign_ok corpus cluster (length companies) company doc)
      as (t & w & bucket & Hin & Hbucket & ->); [done|done| |].
    { intros t w Hin. apply Hkeys. by eapply Htopics. }
    eexists. split; [done|]. split.
    + intros t'. rewrite lookup_insert_is_Some', <- Hkeys. split; [|by right].
      intros [<-|?]; [by eauto|done].
    + rewrite members_append by done. by rewrite Hmembers.
Qed.

(** Two buckets of a dictionary whose members are all different share no
    company. *)
Lemma members_NoDup_disjoint (cluster : gmap Z (list string)) t1 t2 b1 b2 company :
  NoDup (members cluster) →
  cluster !! t1 = Some b1 → cluster !! t2 = Some b2 →
  company ∈ b1 → company ∈ b2 → t1 = t2.
Proof.
  intros Hnd H1 H2 Hin1 Hin2. destruct (decide (t1 = t2)) as [|Hne]; [done|].
  exfalso. unfold members, buckets in Hnd.
  rewrite <- (insert_delete_id cluster t1 b1 H1) in Hnd.
  rewrite map_to_list_insert in Hnd by apply lookup_delete_eq.
  assert (H2' : delete t1 cluster !! t2 = Some b2) by by rewrite lookup_delete_ne.
  rewrite <- (insert_delete_id _ t2 b2 H2') in Hnd.
  rewrite map_to_list_insert in Hnd by apply lookup_delete_eq.
  simpl in Hnd. apply NoDup_app in Hnd as (_ & Hdisj & _).
  apply (Hdisj company Hin1). apply elem_of_app. by left.
Qed.

(** C4. When the corpus is parallel to the companies and the model gives
    every document a non-empty list of pairs with topics in
    [0 .. num_topics - 1], the function returns a dictionary whose keys are
    exactly these topics, whose buckets together hold the companies (each
    occurrence once), whose bucket lengths add up to the number of
    companies, and in which every company is in exactly one bucket. *)
Theorem every_company_in_one_bucket num_topics (corpus : list Doc) companies :
  length corpus = length companies →
  (∀ doc, doc ∈ corpus →
     lda doc ≠ [] ∧ ∀ t w, (t, w) ∈ lda doc → (0 ≤ t < num_topics)%Z) →
  ∃ cluster,
    cluster_companies_by_main_topic Doc lda num_topics corpus companies = Ok cluster
    ∧ (∀ t, is_Some (cluster !! t) ↔ (0 ≤ t < num_topics)%Z)
    ∧ members cluster ≡ₚ companies
    ∧ sum_list (length <$> buckets cluster) = length companies
    ∧ (NoDup companies → ∀ company, company ∈ companies →
         ∃ t bucket,
           cluster !! t = Some bucket ∧ company ∈ bucket ∧
           ∀ t' bucket', cluster !! t' = Some bucket' → company ∈ bucket' → t' = t).
Proof.
  intros Hlen Hlda.
  destruct (cluster_loop_ok num_topics corpus companies)
    as (cluster & Hrun & Hkeys & Hmembers); [lia|done|].
  exists cluster. split; [done|]. split; [done|]. split; [done|]. split.
  - rewrite <- length_join. fold (members cluster). by rewrite Hmembers.
  - intros Hnd company Hin. rewrite <- Hmembers in Hin, Hnd.
    pose proof Hin as Hin'. unfold members, buckets in Hin'.
    apply list_elem_of_join in Hin' as (bucket & Hcb & Hb).
    apply list_elem_of_fmap in Hb as ([t b] & -> & Hb).
    apply elem_of_map_to_list in Hb. simpl in Hcb.
    exists t, b. repeat split; try done.
    intros t' b' Hb' Hcb'. by eapply members_NoDup_disjoint.
Qed.

Lemma assign_first_max (corpus : list Doc) cluster idx company doc k topic w bucket :
  corpus !! idx = Some doc →
  lda doc !! k = Some (topic, w) →
  first_max_at (snd <$> lda doc) k w →
  cluster !! topic = Some bucket →
  assign Doc lda corpus cluster (idx, company)
    = Ok (<[topic := bucket ++ [company]]> cluster).
Proof.
  intros Hdoc Hpair Hmax Hbucket. unfold assign. rewrite Hdoc. simpl.
  rewrite (py_max_first_max _ k w Hmax). simpl.
  rewrite (py_index_first_max _ k w Hmax). simpl.
  rewrite Hpair. simpl. by rewrite Hbucket.
Qed.

Lemma assign_empty (corpus : list Doc) cluster idx company doc :
  corpus !! idx = Some doc → lda doc = [] →
  assign Doc lda corpus cluster (idx, company) = Raise ValueError.
Proof. intros Hdoc Hnil. unfold assign. rewrite Hdoc. simpl. by rewrite Hnil. Qed.

(** C6. If the model returns no pair for the document of some company, the
    loop body raises [ValueError] for that company in any dictionary, the
    call raises and returns no dictionary, and the exception is this
    [ValueError] whenever the companies before it went through. *)
Theorem empty_weights_raise num_topics (corpus : list Doc) companies idx company doc :
  companies !! idx = Some company →
  corpus !! idx = Some doc →
  lda doc = [] →
  (∀ cluster, assign Doc lda corpus cluster (idx, company) = Raise ValueError)
  ∧ (∃ e, cluster_companies_by_main_topic Doc lda num_topics corpus companies
            = Raise e)
  ∧ (∀ cluster,
       cluster_companies_by_main_topic Doc lda num_topics corpus (take idx companies)
         = Ok cluster →
       cluster_companies_by_main_topic Doc lda num_topics corpus companies
         = Raise ValueError).
Proof.
  intros Hcompany Hdoc Hnil.
  assert (Hbody : ∀ cluster,
    assign Doc lda corpus cluster (idx, company) = Raise ValueError).
  { intros cluster. by eapply assign_empty. }
  assert (Hsplit : ∀ r,
    cluster_companies_by_main_topic Doc lda num_topics corpus (take idx companies) = r →
    cluster_companies_by_main_topic Doc lda num_topics corpus companies
      = match r with Ok _ => Raise ValueError | Raise e => Raise e end).
  { intros r <-. unfold cluster_companies_by_main_topic.
    rewrite <- (take_drop_middle companies idx company Hcompany) at 1.
    rewrite enumerate_app, for_each_app.
    destruct (for_each _ _ (enumerate (take idx companies))) as [cluster|e]; [|done].
    cbn [bind imap for_each].
    rewrite Nat.add_0_r, length_take_le
      by (apply lookup_lt_Some in Hcompany; lia).
    by rewrite Hbody. }
  split; [done|]. split.
  - specialize (Hsplit _ eq_refl). rewrite Hsplit.
    destruct (cluster_companies_by_main_topic _ _ _ _ (take idx companies)); eauto.
  - intros cluster Hrun. by rewrite (Hsplit _ Hrun).
Qed.

(** C3. For the company at index [idx] the loop body looks up the pairs
    of [corpus[idx]] and appends the company to the bucket of the topic of
    the first pair that attains the maximal weight; the function is this
    body run over the companies in order; and on the two-company example of
    the specification the result is [{0: ["B"], 1: ["A"]}]. *)
Theorem main_topic_first_max (corpus : list Doc) cluster idx company doc k topic w bucket :
  corpus !! idx = Some doc →
  lda doc !! k = Some (topic, w) →
  first_max_at (snd <$> lda doc) k w →
  cluster !! topic = Some bucket →
  assign Doc lda corpus cluster (idx, company)
    = Ok (<[topic := bucket ++ [company]]> cluster)
  ∧ (∀ num_topics companies,
       length companies = idx →
       cluster_companies_by_main_topic Doc lda num_topics corpus companies
         = Ok cluster →
       cluster_companies_by_main_topic Doc lda num_topics corpus (companies ++ [company])
         = Ok (<[topic := bucket ++ [company]]> cluster))
  ∧ cluster_companies_by_main_topic string lda_example 2
      ["doc A"; "doc B"] ["A"; "B"]
    = Ok {[ 0%Z := ["B"]; 1%Z := ["A"] ]}.
Proof.
  intros Hdoc Hpair Hmax Hbucket.
  assert (Hbody : assign Doc lda corpus cluster (idx, company)
                  = Ok (<[topic := bucket ++ [company]]> cluster))
    by by eapply assign_first_max.
  split; [done|]. split.
  - intros num_topics companies <- Hrun.
    unfold cluster_companies_by_main_topic in *.
    rewrite enumerate_snoc, for_each_snoc, Hrun. exact Hbody.
  - vm_compute. reflexivity.
Qed.

End TopicClustererFacts.

Lemma float_tie_first_max :
  first_max_at (snd <$> lda_tie "doc A") 1 0.5%float.
Proof.
  split; [done|]. split.
  - intros [|j] w' Hj; [|lia]. intros [= <-]. by vm_compute.
  - intros [|[|[|j]]] w' Hj; try lia; [by intros [= <-]|done].
Qed.

Lemma main_topic_first_max_witness :
  assign string lda_tie ["doc A"] (init_cluster 3) (0, "A")
  = Ok (<[1%Z := [] ++ ["A"]]> (init_cluster 3)).
Proof.
  refine (proj1 (main_topic_first_max string lda_tie ["doc A"] (init_cluster 3)
                   0 "A" "doc A" 1 1%Z 0.5%float [] _ _ _ _)).
  - reflexivity.
  - reflexivity.
  - exact float_tie_first_max.
  - reflexivity.
Defined.

Lemma every_company_in_one_bucket_witness :
  ∃ cluster,
    cluster_companies_by_main_topic string lda_example 2
      ["doc A"; "doc B"] ["A"; "B"] = Ok cluster
    ∧ (∀ t, is_Some (cluster !! t) ↔ (0 ≤ t < 2)%Z)
    ∧ members cluster ≡ₚ ["A"; "B"]
    ∧ sum_list (length <$> buckets cluster) = 2.
Proof.
  destruct (every_company_in_one_bucket string lda_example 2
              ["doc A"; "doc B"] ["A"; "B"]) as (cluster & Hrun & Hkeys & Hm & Hsum & _).
  - reflexivity.
  - intros doc _. unfold lda_example.
    destruct (String.eqb doc "doc A"); (split; [done|]);
      intros t w [[= -> _]|[[= -> _]|[]%elem_of_nil]%elem_of_cons]%elem_of_cons; lia.
  - exists cluster. by repeat split; try apply Hkeys.
Defined.

Lemma empty_weights_raise_witness :
  cluster_companies_by_main_topic string lda_gap 1 ["doc A"; "doc B"] ["A"; "B"]
  = Raise ValueError.
Proof.
  refine (proj2 (proj2 (empty_weights_raise string lda_gap 1
            ["doc A"; "doc B"] ["A"; "B"] 1 "B" "doc B" _ _ _)) _ _);
    reflexivity.
Defined.

(** ** BatchScraper *)

Section BatchScraperFacts.

Variable lower : string → string.
Variable fetch : string → option (list node).

(** The repair loop appends the long headers, in order, to the entry that
    was just stored. *)
Lemma repair_loop company (documents : gmap string (list string)) doc headers :
  foldl (repair company) (<[company := doc]> documents) headers
    = <[company := doc ++ filter long_header headers]> documents.
Proof.
  revert doc. induction headers as [|header headers IH]; intros doc.
  - simpl. by rewrite app_nil_r.
  - simpl. unfold repair at 2. rewrite filter_cons.
    destruct (decide (long_header header)) as [Hlong|Hshort].
    + apply Nat.ltb_lt in Hlong as ->.
      rewrite alter_insert_eq, IH. by rewrite <- app_assoc.
    + apply Nat.ltb_nlt in Hshort as ->. apply IH.
Qed.

Lemma scrape_one_spec (documents section_headers : gmap string (list string))
    company url :
  scrape_one lower fetch (documents, section_headers) (company, url) =
    match get_10k_text lower fetch url with
    | None => None
    | Some (headers, doc) =>
        if decide (doc = []) then Some (documents, section_headers)
        else Some (<[company := doc ++ filter long_header headers]> documents,
                   <[company := headers]> section_headers)
    end.
Proof.
  unfold scrape_one. destruct (get_10k_text lower fetch url) as [[headers doc]|]; [|done].
  simpl. destruct doc as [|paragraph doc]; [done|].
  rewrite decide_False by done. by rewrite repair_loop.
Qed.

(** What the loop leaves under one company, the keys of [items] being
    distinct as the keys of a dictionary are. *)
Lemma scrape_loop_lookup acc items acc' company :
  scrape_loop lower fetch acc items = Some acc' →
  NoDup items.*1 →
  (company ∉ items.*1 →
     acc'.1 !! company = acc.1 !! company ∧ acc'.2 !! company = acc.2 !! company)
  ∧ (∀ url, (company, url) ∈ items →
       ∃ headers doc,
         get_10k_text lower fetch url = Some (headers, doc) ∧
         if decide (doc = [])
         then acc'.1 !! company = acc.1 !! company
              ∧ acc'.2 !! company = acc.2 !! company
         else acc'.1 !! company = Some (doc ++ filter long_header headers)
              ∧ acc'.2 !! company = Some headers).
Proof.
  revert acc. induction items as [|[c u] items IH]; intros acc Hrun Hnd.
  { injection Hrun as <-. split; [done|]. by intros url ?%elem_of_nil. }
  simpl in Hrun, Hnd. apply NoDup_cons in Hnd as [Hfresh Hnd].
  destruct acc as [documents section_headers].
  destruct (scrape_one lower fetch (documents, section_headers) (c, u))
    as [acc1|] eqn:Hone; [|done].
  simpl in Hrun. destruct (IH acc1 Hrun Hnd) as [IHout IHin].
  rewrite scrape_one_spec in Hone.
  destruct (get_10k_text lower fetch u) as [[headers doc]|] eqn:Hget; [|done].
  assert (Hother : company ≠ c →
    acc1.1 !! company = documents !! company
    ∧ acc1.2 !! company = section_headers !! company).
  { intros Hne. destruct (decide (doc = [])); injection Hone as <-; simpl;
      [done|]. by rewrite !lookup_insert_ne. }
  split.
  - intros [Hne Hout]%not_elem_of_cons. simpl.
    destruct (IHout Hout) as [-> ->]. by apply Hother.
  - intros url [[= -> ->]|Hin]%elem_of_cons.
    + exists headers, doc. split; [done|].
      destruct (IHout Hfresh) as [-> ->].
      destruct (decide (doc = [])); injection Hone as <-; simpl; [done|].
      by rewrite !lookup_insert_eq.
    + assert (Hne : company ≠ c).
      { intros ->. apply Hfresh. apply list_elem_of_fmap. by exists (c, url). }
      destruct (IHin url Hin) as (headers' & doc' & Hget' & Hres).
      exists headers', doc'. split; [done|].
      simpl. destruct (Hother Hne) as [<- <-]. exact Hres.
Qed.

(** The loop raises only if a fetch does. *)
Lemma scrape_loop_total acc items :
  (∀ company url, (company, url) ∈ items → is_Some (fetch url)) →
  is_Some (scrape_loop lower fetch acc items).
Proof.
  revert acc. induction items as [|[c u] items IH]; intros acc Hfetch; [by eauto|].
  cbn [scrape_loop]. destruct acc as [documents section_headers].
  rewrite scrape_one_spec.
  destruct (Hfetch c u) as [body Hbody]; [by left|].
  assert (Hget : get_10k_text lower fetch u = Some (extract_section lower body))
    by (unfold get_10k_text; by rewrite Hbody).
  rewrite Hget. destruct (extract_section lower body) as [headers doc].
  destruct (decide (doc = [])); simpl; apply IH; intros company url Hin;
    eapply Hfetch; by right.
Qed.

(** C8. A company is a key of the returned corpus exactly when the
    paragraphs extracted for it are non-empty; a source without paragraphs
    makes the loop body return the dictionaries as they were, and the
    function raises nothing as long as every fetch succeeds. *)
Theorem empty_sources_dropped (urls : list (string * string)) :
  NoDup urls.*1 →
  (∀ acc company url headers,
     get_10k_text lower fetch url = Some (headers, []) →
     scrape_one lower fetch acc (company, url) = Some acc)
  ∧ ((∀ company url, (company, url) ∈ urls → is_Some (fetch url)) →
     is_Some (scrape_edgar lower fetch urls))
  ∧ (∀ documents,
       scrape_edgar lower fetch urls = Some documents →
       (∀ company, is_Some (documents !! company) → company ∈ urls.*1)
       ∧ (∀ company url, (company, url) ∈ urls →
            ∃ headers doc,
              get_10k_text lower fetch url = Some (headers, doc)
              ∧ (is_Some (documents !! company) ↔ doc ≠ []))).
Proof.
  intros Hnd. split; [|split].
  - intros [documents section_headers] company url headers Hget.
    by rewrite scrape_one_spec, Hget.
  - intros Hfetch. unfold scrape_edgar. apply fmap_is_Some.
    by apply scrape_loop_total.
  - intros documents Hrun. unfold scrape_edgar in Hrun.
    apply fmap_Some in Hrun as ([docs section_headers] & Hrun & ->). simpl. split.
    + intros company Hsome.
      destruct (decide (company ∈ urls.*1)) as [|Hout]; [done|].
      destruct (scrape_loop_lookup _ _ _ company Hrun Hnd) as [Hkeep _].
      destruct (Hkeep Hout) as [Heq _]. simpl in Heq.
      rewrite Heq, lookup_empty in Hsome. by destruct Hsome.
    + intros company url Hin.
      destruct (scrape_loop_lookup _ _ _ company Hrun Hnd) as [_ Hat].
      destruct (Hat url Hin) as (headers & doc & Hget & Hres).
      exists headers, doc. split; [done|].
      destruct (decide (doc = [])) as [->|Hne]; simpl in Hres.
      * destruct Hres as [-> _]. rewrite lookup_empty. split; [by intros [? ?]|done].
      * destruct Hres as [-> _]. split; [done|by eauto].
Qed.

(** C9. The paragraphs stored for a kept company are the extracted
    paragraphs followed by those of its headers that are longer than 100
    characters, in the order of the headers; shorter headers are left out.
    The length is that of [len], the number of characters. *)
Theorem long_headers_appended (urls : list (string * string)) documents :
  NoDup urls.*1 →
  scrape_edgar lower fetch urls = Some documents →
  ∀ company paragraphs,
    documents !! company = Some paragraphs →
    ∃ url headers doc,
      (company, url) ∈ urls
      ∧ get_10k_text lower fetch url = Some (headers, doc)
      ∧ doc ≠ []
      ∧ paragraphs = doc ++ filter (λ header, 100 < PyStr.len header) headers.
Proof.
  intros Hnd Hrun company paragraphs Hlookup. unfold scrape_edgar in Hrun.
  apply fmap_Some in Hrun as ([docs section_headers] & Hrun & ->). simpl in *.
  destruct (scrape_loop_lookup _ _ _ company Hrun Hnd) as [Hkeep Hat].
  destruct (decide (company ∈ urls.*1)) as [Hin|Hout].
  - apply list_elem_of_fmap in Hin as ([c url] & -> & Hin). simpl in *.
    destruct (Hat url Hin) as (headers & doc & Hget & Hres).
    exists url, headers, doc.
    destruct (decide (doc = [])) as [->|Hne]; simpl in Hres.
    + destruct Hres as [Heq _]. by rewrite Heq, lookup_empty in Hlookup.
    + destruct Hres as [Heq _]. rewrite Heq in Hlookup.
      injection Hlookup as <-. done.
  - destruct (Hkeep Hout) as [Heq _]. simpl in Heq.
    by rewrite Heq, lookup_empty in Hlookup.
Qed.

End BatchScraperFacts.

Lemma urls_example_NoDup : NoDup urls_example.*1.
Proof. apply (bool_decide_unpack _). by vm_compute. Qed.

Lemma empty_sources_dropped_witness :
  ∃ headers doc,
    get_10k_text PyStr.ascii_lower fetch_example "https://sec.example/void"
      = Some (headers, doc)
    ∧ (is_Some (({[ "ACME" := ["We sell software."; long_bold_text] ]}
                   : gmap string (list string)) !! "VOID")
       ↔ doc ≠ []).
Proof.
  refine (proj2 (proj2 (proj2 (empty_sources_dropped PyStr.ascii_lower fetch_example
                                 urls_example urls_example_NoDup)) _ _) _ _ _).
  - vm_compute. reflexivity.
  - apply list_elem_of_further, list_elem_of_here.
Defined.

Lemma long_headers_appended_witness :
  ∃ url headers doc,
    ("ACME", url) ∈ urls_example
    ∧ get_10k_text PyStr.ascii_lower fetch_example url = Some (headers, doc)
    ∧ doc ≠ []
    ∧ ["We sell software."; long_bold_text]
      = doc ++ filter (λ header, 100 < PyStr.len header) headers.
Proof.
  refine (long_headers_appended PyStr.ascii_lower fetch_example urls_example
            {[ "ACME" := ["We sell software."; long_bold_text] ]}
            urls_example_NoDup _ "ACME" _ _).
  - vm_compute. reflexivity.
  - reflexivity.
Defined.

(** Characters, not bytes, are counted: a header of exactly 100 characters
    is not copied into the paragraphs, although its encoding has 106 bytes. *)
Lemma hundred_character_header_not_copied :
  PyStr.len hundred_chars = 100
  ∧ String.length hundred_chars = 106
  ∧ get_10k_text PyStr.ascii_lower fetch_hundred "u" = Some ([hundred_chars], ["p1"])
  ∧ scrape_edgar PyStr.ascii_lower fetch_hundred [("K1", "u")]
    = Some {[ "K1" := ["p1"] ]}.
Proof. repeat split; vm_compute; reflexivity. Qed.

(** C1. On a filing with a business section the loop of [scrape_edgar]
    fills both dictionaries, but the function returns the paragraphs
    dictionary alone; the headers dictionary is not part of its result. *)
Theorem scrape_edgar_returns_documents_only :
  scrape_loop PyStr.ascii_lower fetch_example (∅, ∅) urls_example
    = Some ({[ "ACME" := ["We sell software."; long_bold_text] ]},
            {[ "ACME" := ["Item 1. Business"; long_bold_text; "Competition"] ]})
  ∧ scrape_edgar PyStr.ascii_lower fetch_example urls_example
    = Some {[ "ACME" := ["We sell software."; long_bold_text] ]}.
Proof. split; vm_compute; reflexivity. Qed.

(** * Further properties *)

(** ** AttributeParser: composition *)

Lemma split_app_sep sep a b :
  PyStr.split sep (a +:+ String sep b) = PyStr.split sep a ++ PyStr.split sep b.
Proof.
  induction a as [|c a IH]; simpl.
  - by rewrite Ascii.eqb_refl.
  - destruct (Ascii.eqb c sep); [by rewrite IH|].
    rewrite IH. pose proof (split_nonempty sep a) as Hne.
    by destruct (PyStr.split sep a).
Qed.

Lemma store_pair_union (m1 m2 : gmap string string) pair :
  store_pair (m1 ∪ m2) pair = store_pair m1 pair ∪ m2.
Proof.
  destruct pair as [|k [|v [|? ?]]]; try done. simpl. apply insert_union_l.
Qed.

(** Starting the loop from a non-empty dictionary only adds the old entries
    that the loop does not overwrite. *)
Lemma store_pairs_union (m : gmap string string) pairs :
  foldl store_pair m pairs = foldl store_pair ∅ pairs ∪ m.
Proof.
  induction pairs as [|pair pairs IH] using rev_ind.
  - simpl. by rewrite (left_id_L ∅ (∪)).
  - by rewrite !foldl_snoc, IH, store_pair_union.
Qed.

(** X1. Parsing two attribute strings joined by a semicolon gives the
    entries of the second, then those of the first for the keys the second
    does not set: later declarations win.  In particular a trailing
    semicolon changes nothing. *)
Theorem convert_attr_to_dict_app (a b : string) :
  convert_attr_to_dict (a +:+ ";" +:+ b)
    = convert_attr_to_dict b ∪ convert_attr_to_dict a
  ∧ convert_attr_to_dict (a +:+ ";") = convert_attr_to_dict a.
Proof.
  assert (Happ : ∀ a b, convert_attr_to_dict (a +:+ ";" +:+ b)
                        = convert_attr_to_dict b ∪ convert_attr_to_dict a).
  { clear. intros a b. unfold convert_attr_to_dict.
    change (a +:+ ";" +:+ b) with (a +:+ String ";"%char b).
    rewrite split_app_sep, fmap_app, foldl_app. apply store_pairs_union. }
  split; [apply Happ|].
  change (a +:+ ";") with (a +:+ ";" +:+ ""). rewrite (Happ a "").
  change (convert_attr_to_dict "") with (∅ : gmap string string).
  by rewrite (left_id_L ∅ (∪)).
Qed.

(** ** AttributeParser: where the entries come from *)

Lemma convert_attr_lookup attr key value :
  convert_attr_to_dict attr !! key = Some value ↔
  ∃ before after,
    PyStr.split ";" attr = before ++ (key +:+ ":" +:+ value) :: after ∧
    PyStr.count ":" key = 0 ∧ PyStr.count ":" value = 0 ∧
    ∀ value', PyStr.count ":" value' = 0 → (key +:+ ":" +:+ value') ∉ after.
Proof.
  unfold convert_attr_to_dict. rewrite store_pairs_lookup. split.
  - intros (before & after & Heq & Hafter).
    apply fmap_app_inv in Heq as (segs1 & segs2 & -> & Heq & ->).
    symmetry in Heq.
    apply fmap_cons_inv in Heq as (seg & segs3 & Hseg & -> & ->).
    symmetry in Hseg. apply split_two in Hseg as (-> & Hk & Hv).
    exists segs1, segs3. repeat split; try done.
    intros value' Hv' Hin. apply (Hafter value').
    apply list_elem_of_fmap. eexists. split; [|exact Hin].
    symmetry. by apply split_two.
  - intros (before & after & -> & Hk & Hv & Hafter).
    exists (PyStr.split ":" <$> before), (PyStr.split ":" <$> after). split.
    + rewrite fmap_app, fmap_cons. do 2 f_equal. by apply split_two.
    + intros value' (seg & Hseg & Hin)%list_elem_of_fmap.
      symmetry in Hseg. apply split_two in Hseg as (-> & _ & Hv').
      by apply (Hafter value').
Qed.

Lemma count_app c a b :
  PyStr.count c (a +:+ b) = PyStr.count c a + PyStr.count c b.
Proof. induction a as [|c' a IH]; simpl; [done|]. rewrite IH. lia. Qed.

Lemma prefix_app n y : String.prefix n (n +:+ y) = true.
Proof.
  induction n as [|c n IH]; simpl; [by destruct y|].
  destruct (ascii_dec c c); [exact IH|done].
Qed.

Lemma contains_prefix n hay : String.prefix n hay = true → PyStr.contains n hay = true.
Proof. intros Hp. destruct hay; cbn [PyStr.contains]; by rewrite Hp. Qed.

Lemma contains_app_r n x y :
  PyStr.contains n y = true → PyStr.contains n (x +:+ y) = true.
Proof.
  intros Hy. induction x as [|c x IH]; [done|].
  change (String c x +:+ y) with (String c (x +:+ y)).
  cbn [PyStr.contains]. rewrite IH. apply orb_true_r.
Qed.

Lemma append_empty_r (s : string) : s +:+ "" = s.
Proof.
  induction s as [|c s IH]; [done|].
  change (String c s +:+ "") with (String c (s +:+ "")). by rewrite IH.
Qed.

Lemma contains_join sep seg pieces :
  seg ∈ pieces → PyStr.contains seg (PyStr.join sep pieces) = true.
Proof.
  induction pieces as [|p pieces IH]; [by intros ?%elem_of_nil|].
  intros [->|Hin]%elem_of_cons.
  - destruct pieces as [|q pieces].
    + simpl. rewrite <- (append_empty_r p) at 2.
      apply contains_prefix, prefix_app.
    + rewrite join_cons by done. apply contains_prefix, prefix_app.
  - rewrite join_cons by (intros ->; by apply elem_of_nil in Hin).
    apply contains_app_r. change (String sep ?s) with (String sep "" +:+ s).
    apply contains_app_r. by apply IH.
Qed.

(** X2. Every entry of the parsed dictionary is written in the attribute
    string as [key:value], and neither its key nor its value contains a
    semicolon or a colon. *)
Theorem convert_attr_to_dict_entries attr key value :
  convert_attr_to_dict attr !! key = Some value →
  PyStr.contains (key +:+ ":" +:+ value) attr = true
  ∧ PyStr.count ";" key = 0 ∧ PyStr.count ":" key = 0
  ∧ PyStr.count ";" value = 0 ∧ PyStr.count ":" value = 0.
Proof.
  intros (before & after & Hsplit & Hk & Hv & _)%convert_attr_lookup.
  assert (Hin : key +:+ ":" +:+ value ∈ PyStr.split ";" attr).
  { rewrite Hsplit. apply elem_of_app. right. by left. }
  split.
  - rewrite <- (join_split ";" attr) at 1. by apply contains_join.
  - pose proof (split_pieces ";" attr) as Hfree.
    rewrite Forall_forall in Hfree. apply Hfree in Hin.
    rewrite !count_app in Hin. simpl in Hin. repeat split; try done; lia.
Qed.

Lemma convert_attr_to_dict_entries_witness :
  PyStr.contains ("font-size" +:+ ":" +:+ "11pt")
    "font-family:Helvetica,sans-serif;font-size:11pt;font-weight:bold;" = true
  ∧ PyStr.count ";" "font-size" = 0 ∧ PyStr.count ":" "font-size" = 0
  ∧ PyStr.count ";" "11pt" = 0 ∧ PyStr.count ":" "11pt" = 0.
Proof.
  apply (convert_attr_to_dict_entries
           "font-family:Helvetica,sans-serif;font-size:11pt;font-weight:bold;").
  vm_compute. reflexivity.
Defined.

(** X3. A style is classified as bold exactly when one of its segments is
    literally [font-weight:bold] and no later segment sets [font-weight]
    again; spaces around the colon or a different case make it not bold. *)
Theorem is_bold_last_font_weight (style : string) :
  is_bold style = true ↔
  ∃ before after,
    PyStr.split ";" style = before ++ "font-weight:bold" :: after
    ∧ ∀ value, PyStr.count ":" value = 0 → ("font-weight:" +:+ value) ∉ after.
Proof.
  unfold is_bold. rewrite bool_decide_eq_true, convert_attr_lookup. split.
  - intros (before & after & Hsplit & _ & _ & Hafter). by exists before, after.
  - intros (before & after & Hsplit & Hafter). exists before, after.
    repeat split; try done.
Qed.

(** ** SectionExtractor: what is recorded *)

Section ExtractorSpan.

Variable lower : string → string.

(** A node that is no marker: the three ways the loop body treats it. *)
Lemma visit_plain st data :
  bold_with lower "business" data = false →
  bold_with lower "risk factors" data = false →
  visit lower st data =
    Continue
      (if start_recording st
       then Extraction
              (headers st ++ (if header_node data then [text data] else []))
              (paragraphs st ++ (if paragraph_node data then [text data] else []))
              true
       else st).
Proof.
  unfold bold_with, visit, header_node, paragraph_node.
  destruct (font_style data) as [style|].
  - destruct (is_bold style); simpl.
    + intros -> ->. destruct st as [hs ps []]; simpl; [|done].
      by rewrite app_nil_r.
    + intros _ _. destruct st as [hs ps []]; simpl; [|done].
      by rewrite app_nil_r.
  - intros _ _. destruct st as [hs ps []]; simpl; [|done].
    by rewrite !app_nil_r.
Qed.

(** Before the start marker the loop changes nothing. *)
Lemma walk_idle st body :
  start_recording st = false →
  Forall (λ data, bold_with lower "business" data = false
                  ∧ bold_with lower "risk factors" data = false) body →
  walk lower st body = st.
Proof.
  intros Hidle Hbody. induction Hbody as [|data body [Hb Hr] _ IH]; [done|].
  simpl. rewrite visit_plain by done. by rewrite Hidle.
Qed.

(** While recording and before the end marker the loop records every
    readable node, bold ones as headers and the others as paragraphs. *)
Lemma walk_recording st body :
  start_recording st = true →
  Forall (λ data, bold_with lower "risk factors" data = false) body →
  walk lower st body =
    Extraction (headers st ++ (text <$> filter (λ data, header_node data) body))
               (paragraphs st ++ (text <$> filter (λ data, paragraph_node data) body))
               true.
Proof.
  intros Hrec Hbody. revert st Hrec.
  induction Hbody as [|data body Hr _ IH]; intros st Hrec.
  - simpl. rewrite !app_nil_r. destruct st; simpl in *; by subst.
  - simpl. assert (Hvisit : visit lower st data =
      Continue (Extraction
        (headers st ++ (if header_node data then [text data] else []))
        (paragraphs st ++ (if paragraph_node data then [text data] else []))
        true)).
    { destruct st as [hs ps recording]. simpl in Hrec. subst recording.
      unfold visit, header_node, paragraph_node, bold_with in *. simpl.
      destruct (font_style data) as [style|]; [|by rewrite !app_nil_r].
      destruct (is_bold style); simpl in *.
      - rewrite Hr.
        destruct (PyStr.contains "business" (lower (text data))); simpl;
          by rewrite app_nil_r.
      - by rewrite app_nil_r. }
    rewrite Hvisit, IH by done. simpl. rewrite !filter_cons.
    destruct (header_node data), (paragraph_node data); simpl;
      by rewrite <- ?app_assoc, ?app_nil_r.
Qed.

(** X4. Without a bold node whose lowered text contains "business" the
    extractor returns no header and no paragraph. *)
Theorem no_start_marker_nothing_recorded (body : list node) :
  Forall (λ data, bold_with lower "business" data = false) body →
  extract_section lower body = ([], []).
Proof.
  intros Hbody. unfold extract_section.
  assert (Hgen : ∀ st, start_recording st = false →
            headers (walk lower st body) = headers st
            ∧ paragraphs (walk lower st body) = paragraphs st).
  { induction Hbody as [|data body Hb _ IH]; intros st Hidle; [done|]. simpl.
    destruct (bold_with lower "risk factors" data) eqn:Hr.
    - destruct (visit_end_marker lower st data Hr) as (st' & -> & ? & ?). done.
    - rewrite visit_plain by done. rewrite Hidle. by apply IH. }
  destruct (Hgen (Extraction [] [] false) eq_refl) as [-> ->]. done.
Qed.

(** X5. A node whose style cannot be read (a bare string, no [font]
    element, no [style] attribute) is skipped: the result is the same as
    without it. *)
Theorem unreadable_node_skipped (before : list node) (data : node) (after : list node) :
  font_style data = None →
  extract_section lower (before ++ data :: after)
    = extract_section lower (before ++ after).
Proof.
  intros Hnone. unfold extract_section.
  assert (Hgen : ∀ st, walk lower st (before ++ data :: after)
                       = walk lower st (before ++ after)).
  { induction before as [|d before IH]; intros st; simpl.
    - unfold visit. by rewrite Hnone.
    - destruct (visit lower st d); [apply IH|done]. }
  by rewrite Hgen.
Qed.

(** X6. For a body made of nodes without marker, then a start marker, then
    nodes without end marker, then either nothing or an end marker followed
    by anything: the headers are the start marker's text and the texts of
    the bold nodes in between, the paragraphs are the texts of the readable
    non-bold nodes in between, each in document order. *)
Theorem recorded_span (before : list node) (start : node) (middle tail : list node) :
  Forall (λ data, bold_with lower "business" data = false
                  ∧ bold_with lower "risk factors" data = false) before →
  bold_with lower "business" start = true →
  bold_with lower "risk factors" start = false →
  Forall (λ data, bold_with lower "risk factors" data = false) middle →
  match tail with
  | [] => True
  | stop :: _ => bold_with lower "risk factors" stop = true
  end →
  extract_section lower (before ++ start :: middle ++ tail)
    = (text start :: (text <$> filter (λ data, header_node data) middle),
       text <$> filter (λ data, paragraph_node data) middle).
Proof.
  intros Hbefore Hstart Hnoend Hmiddle Htail. unfold extract_section.
  rewrite walk_app by (eapply Forall_impl; [exact Hbefore|by intros ? [_ ?]]).
  rewrite (walk_idle _ before) by done. simpl.
  assert (Hvisit : visit lower (Extraction [] [] false) start
                   = Continue (Extraction [text start] [] true)).
  { unfold visit, bold_with in *. destruct (font_style start) as [style|]; [|done].
    apply andb_true_iff in Hstart as [Hbold Hbusiness].
    rewrite Hbold in *. simpl in Hnoend. by rewrite Hbusiness, Hnoend. }
  rewrite Hvisit, walk_app by done. rewrite (walk_recording _ middle) by done. simpl.
  destruct tail as [|stop after]; [done|]. simpl.
  match goal with |- context [visit lower ?st stop] =>
    destruct (visit_end_marker lower st stop Htail) as (st' & -> & -> & ->) end.
  done.
Qed.

(** The loop only appends, and what it appends to the headers are texts of
    bold nodes, to the paragraphs texts of readable non-bold nodes. *)
Lemma walk_sublist st body :
  ∃ hs ps,
    headers (walk lower st body) = headers st ++ hs
    ∧ paragraphs (walk lower st body) = paragraphs st ++ ps
    ∧ hs `sublist_of` (text <$> filter (λ data, header_node data) body)
    ∧ ps `sublist_of` (text <$> filter (λ data, paragraph_node data) body).
Proof.
  revert st. induction body as [|data body IH]; intros st.
  { exists [], []. simpl. by rewrite !app_nil_r. }
  assert (Hvisit : ∃ hs ps,
    headers (flow_state (visit lower st data)) = headers st ++ hs
    ∧ paragraphs (flow_state (visit lower st data)) = paragraphs st ++ ps
    ∧ hs `sublist_of` (if header_node data then [text data] else [])
    ∧ ps `sublist_of` (if paragraph_node data then [text data] else [])).
  { unfold visit, header_node, paragraph_node.
    destruct (font_style data) as [style|];
      [|exists [], []; simpl; by rewrite !app_nil_r].
    destruct (is_bold style), (PyStr.contains "business" (lower (text data))),
      (PyStr.contains "risk factors" (lower (text data))),
      (start_recording st); simpl;
      first [ by (exists [], []; rewrite !app_nil_r; repeat split; try done;
                  apply sublist_nil_l)
            | by (exists [text data], []; rewrite !app_nil_r)
            | by (exists [], [text data]; rewrite !app_nil_r) ]. }
  destruct Hvisit as (hs1 & ps1 & Hh1 & Hp1 & Hsh1 & Hsp1).
  assert (Hcons : ∀ (P : node → bool) (l : list string),
    l `sublist_of` (if P data then [text data] else []) →
    ∀ l', l' `sublist_of` (text <$> filter (λ d, P d) body) →
    (l ++ l') `sublist_of` (text <$> filter (λ d, P d) (data :: body))).
  { intros P l Hl l' Hl'. rewrite filter_cons. destruct (P data); simpl.
    - exact (sublist_app _ [text data] _ _ Hl Hl').
    - apply sublist_nil_r in Hl as ->. done. }
  simpl. destruct (visit lower st data) as [st'|st']; simpl in *.
  - destruct (IH st') as (hs2 & ps2 & Hh2 & Hp2 & Hsh2 & Hsp2).
    exists (hs1 ++ hs2), (ps1 ++ ps2).
    rewrite Hh2, Hp2, Hh1, Hp1, <- !app_assoc. repeat split; try done.
    + by apply (Hcons header_node).
    + by apply (Hcons paragraph_node).
  - exists hs1, ps1. repeat split; try done.
    + rewrite <- (app_nil_r hs1). apply (Hcons header_node); [done|apply sublist_nil_l].
    + rewrite <- (app_nil_r ps1). apply (Hcons paragraph_node); [done|apply sublist_nil_l].
Qed.

(** X7. Whatever the body, the returned headers are texts of bold nodes and
    the returned paragraphs are texts of readable non-bold nodes, in
    document order and without repetition of a node. *)
Theorem extract_section_sublist (body : list node) :
  (extract_section lower body).1
    `sublist_of` (text <$> filter (λ data, header_node data) body)
  ∧ (extract_section lower body).2
    `sublist_of` (text <$> filter (λ data, paragraph_node data) body).
Proof.
  unfold extract_section. simpl.
  destruct (walk_sublist (Extraction [] [] false) body)
    as (hs & ps & -> & -> & Hh & Hp). done.
Qed.

End ExtractorSpan.

Lemma no_start_marker_nothing_recorded_witness :
  extract_section PyStr.ascii_lower
    [plain_node "Annual report"; bold_node "Competition"; plain_node "We sell software."]
  = ([], []).
Proof.
  apply no_start_marker_nothing_recorded. repeat constructor.
Defined.

Lemma unreadable_node_skipped_witness :
  extract_section PyStr.ascii_lower
    ([bold_node "Item 1. Business"] ++ Node None "stray text" :: [plain_node "We sell software."])
  = extract_section PyStr.ascii_lower
      ([bold_node "Item 1. Business"] ++ [plain_node "We sell software."]).
Proof.
  apply unreadable_node_skipped. reflexivity.
Defined.

Lemma recorded_span_witness :
  extract_section PyStr.ascii_lower
    ([plain_node "Annual report"] ++ bold_node "Item 1. Business"
       :: [plain_node "We sell software."; bold_node "Competition"; Node None "stray text"]
       ++ [bold_node "Item 1A. Risk Factors"; plain_node "Our revenue may decline."])
  = ("Item 1. Business"
       :: (text <$> filter (λ data, header_node data)
             [plain_node "We sell software."; bold_node "Competition"; Node None "stray text"]),
     text <$> filter (λ data, paragraph_node data)
       [plain_node "We sell software."; bold_node "Competition"; Node None "stray text"]).
Proof.
  apply (recorded_span PyStr.ascii_lower [plain_node "Annual report"]
           (bold_node "Item 1. Business")).
  - repeat constructor.
  - reflexivity.
  - reflexivity.
  - repeat constructor.
  - reflexivity.
Defined.

(** ** BatchScraper: failures and order *)

Section BatchScraperMore.

Variable lower : string → string.
Variable fetch : string → option (list node).

Lemma scrape_loop_None acc items :
  scrape_loop lower fetch acc items = None
  ↔ Exists (λ item, fetch item.2 = None) items.
Proof.
  revert acc. induction items as [|[c u] items IH]; intros acc.
  { simpl. split; [done|]. by intros ?%Exists_nil. }
  cbn [scrape_loop]. destruct acc as [documents section_headers].
  rewrite scrape_one_spec, Exists_cons. cbn [snd].
  destruct (fetch u) as [body|] eqn:Hfetch.
  - assert (get_10k_text lower fetch u = Some (extract_section lower body)) as ->
      by (unfold get_10k_text; by rewrite Hfetch).
    destruct (extract_section lower body) as [headers doc].
    destruct (decide (doc = [])); simpl; rewrite IH;
      (split; [by right|intros [?|?]; [congruence|done]]).
  - assert (get_10k_text lower fetch u = None) as ->
      by (unfold get_10k_text; by rewrite Hfetch).
    split; [by left|done].
Qed.

Lemma scrape_edgar_raises_None (urls : list (string * string)) :
  scrape_edgar lower fetch urls = None
  ↔ Exists (λ item, fetch item.2 = None) urls.
Proof.
  unfold scrape_edgar. rewrite fmap_None. apply scrape_loop_None.
Qed.

(** X8. [scrape_edgar] raises exactly when the fetch of one of the URLs
    raises: a single unreachable page aborts the whole batch, also when the
    other pages are fine. *)
Theorem scrape_edgar_raises_iff (urls : list (string * string)) :
  scrape_edgar lower fetch urls = None
  ↔ Exists (λ item, fetch item.2 = None) urls.
Proof. apply scrape_edgar_raises_None. Qed.



End BatchScraperMore.


(** ** TextNormalizer *)

Lemma all_chars_scrub s :
  all_chars (λ c, is_kept c || Ascii.eqb c " ") (scrub s) = true.
Proof.
  induction s as [|c s IH]; [done|]. simpl. rewrite IH.
  destruct (is_kept c) eqn:Hc; [by rewrite Hc|done].
Qed.

Lemma squeeze_cons c s :
  squeeze (String c s) =
    if Ascii.eqb c " " then
      match s with
      | String c' _ => if Ascii.eqb c' " " then squeeze s else String c (squeeze s)
      | EmptyString => String c EmptyString
      end
    else String c (squeeze s).
Proof. done. Qed.

(** [squeeze] only removes characters. *)
Lemma all_chars_squeeze P s :
  all_chars P s = true → all_chars P (squeeze s) = true.
Proof.
  induction s as [|c s IH]; [done|]. cbn [all_chars].
  intros [Hc Hs]%andb_true_iff. specialize (IH Hs). rewrite squeeze_cons.
  destruct (Ascii.eqb c " ").
  - destruct s as [|c' s]; [cbn [all_chars]; by rewrite Hc|].
    destruct (Ascii.eqb c' " "); [done|].
    cbn [all_chars]. cbn [all_chars] in IH. by rewrite Hc, IH.
  - cbn [all_chars]. by rewrite Hc, IH.
Qed.

(** [squeeze] keeps the first character. *)
Lemma squeeze_head s c s' :
  squeeze s = String c s' → ∃ s'', s = String c s''.
Proof.
  revert c s'. induction s as [|c0 s IH]; intros c s'; [done|].
  rewrite squeeze_cons.
  destruct (Ascii.eqb_spec c0 " ") as [->|Hc0].
  - destruct s as [|c1 s]; [intros [= <- _]; eauto|].
    destruct (Ascii.eqb_spec c1 " ") as [->|Hc1].
    + intros Hsq. apply IH in Hsq as [s'' [= <- _]]. eauto.
    + intros [= <- _]. eauto.
  - intros [= <- _]. eauto.
Qed.

Lemma squeeze_no_double_space s : PyStr.contains "  " (squeeze s) = false.
Proof.
  induction s as [|c0 s IH]; [done|].
  assert (Hstep : ∀ c, (c = " "%char → ∀ s'', s ≠ String " " s'') →
            PyStr.contains "  " (String c (squeeze s)) = false).
  { intros c Hc. cbn [PyStr.contains]. rewrite IH, orb_false_r.
    cbn [String.prefix].
    destruct (ascii_dec " " c) as [<-|]; [|done].
    destruct (squeeze s) as [|c1 t] eqn:Hsq; [done|]. cbn [String.prefix].
    destruct (ascii_dec " " c1) as [<-|]; [|done].
    apply squeeze_head in Hsq as [s'' ->]. by destruct (Hc eq_refl s''). }
  rewrite squeeze_cons.
  destruct (Ascii.eqb_spec c0 " ") as [->|Hc0].
  - destruct s as [|c1 s]; [done|].
    destruct (Ascii.eqb_spec c1 " ") as [->|Hc1]; [exact IH|].
    apply Hstep. intros _ s'' [= ? _]. done.
  - apply Hstep. intros ->. done.
Qed.

Lemma kept_chars_scrub s : kept_chars (scrub s) = kept_chars s.
Proof.
  induction s as [|c s IH]; [done|]. simpl.
  destruct (is_kept c) eqn:Hc; [by rewrite Hc, IH|]. exact IH.
Qed.

Lemma kept_chars_squeeze s : kept_chars (squeeze s) = kept_chars s.
Proof.
  induction s as [|c s IH]; [done|]. rewrite squeeze_cons.
  destruct (Ascii.eqb_spec c " ") as [->|Hc].
  - destruct s as [|c' s]; [done|].
    destruct (Ascii.eqb c' " "); [exact IH|].
    cbn [kept_chars]. cbn [kept_chars] in IH. by rewrite IH.
  - cbn [kept_chars]. by rewrite IH.
Qed.

Section TextNormalizerFacts.

Variable lower : string → string.

(** X10. The text [format_text] hands to the tokenizer consists of ASCII
    letters, the marks [. ? !] and spaces only, and never has two spaces in
    a row: digits, other punctuation and line breaks have become single
    separators. *)
Theorem clean_text_alphabet (text : list string) :
  all_chars (λ c, is_kept c || Ascii.eqb c " ") (clean_text lower text) = true
  ∧ PyStr.contains "  " (clean_text lower text) = false.
Proof.
  unfold clean_text. split.
  - apply all_chars_squeeze, all_chars_scrub.
  - apply squeeze_no_double_space.
Qed.

(** X11. Cleaning neither drops, adds nor reorders a letter or sentence
    mark: the kept characters of the cleaned text are those of the lowered,
    space-joined input. *)
Theorem clean_text_keeps_letters (text : list string) :
  kept_chars (clean_text lower text) = kept_chars (lower (PyStr.join " " text)).
Proof.
  unfold clean_text. by rewrite kept_chars_squeeze, kept_chars_scrub.
Qed.

End TextNormalizerFacts.

(** ** LemmaFilter: further properties *)

Section LemmaFilterMore.

Variable lemmatize : string → wn_pos → string.
Variable stem : string → string.

Lemma lem_and_stem_filter text stopwords :
  lem_and_stem lemmatize stem text stopwords
    = emitted lemmatize stem <$> filter (retained lemmatize stem stopwords) text.
Proof. apply lem_loop_spec. Qed.

(** X12. No token returned by [lem_and_stem] is a stopword, and the output
    is never longer than the input. *)
Theorem lem_and_stem_no_stopword (text : list (string * string)) (stopwords : gset string) :
  Forall (λ token, token ∉ stopwords) (lem_and_stem lemmatize stem text stopwords)
  ∧ length (lem_and_stem lemmatize stem text stopwords) ≤ length text.
Proof.
  rewrite lem_and_stem_filter. split.
  - apply Forall_fmap, Forall_forall. intros tagged [Hret _]%list_elem_of_filter.
    by destruct Hret as (_ & _ & _ & ?).
  - rewrite length_fmap. apply length_filter.
Qed.

(** X13. Filtering a concatenation of token streams is the concatenation of
    the filtered streams: a token is judged on its own, not by its
    neighbours. *)
Theorem lem_and_stem_app (text1 text2 : list (string * string)) (stopwords : gset string) :
  lem_and_stem lemmatize stem (text1 ++ text2) stopwords
    = lem_and_stem lemmatize stem text1 stopwords
      ++ lem_and_stem lemmatize stem text2 stopwords.
Proof. by rewrite !lem_and_stem_filter, filter_app, fmap_app. Qed.

(** X14. Adding stopwords only removes tokens: the output for the larger
    stopword set is a subsequence of the output for the smaller one. *)
Theorem lem_and_stem_more_stopwords (text : list (string * string))
    (stopwords stopwords' : gset string) :
  stopwords ⊆ stopwords' →
  lem_and_stem lemmatize stem text stopwords'
    `sublist_of` lem_and_stem lemmatize stem text stopwords.
Proof.
  intros Hsub. rewrite !lem_and_stem_filter. apply fmap_sublist.
  induction text as [|tagged text IH]; [done|]. rewrite !filter_cons.
  destruct (decide (retained lemmatize stem stopwords' tagged)) as [Hret|_].
  - rewrite decide_True; [by apply sublist_skip|].
    destruct Hret as (Hpos & Htok & Hlen & Hst).
    repeat split; try done; set_solver.
  - destruct (decide (retained lemmatize stem stopwords tagged));
      [by apply sublist_cons|done].
Qed.

End LemmaFilterMore.

Lemma lem_and_stem_more_stopwords_witness :
  lem_and_stem (λ token _, token) (λ token, token)
    [("company", "NN"); ("revenue", "NN")] {[ "the"; "revenue" ]}
  `sublist_of`
  lem_and_stem (λ token _, token) (λ token, token)
    [("company", "NN"); ("revenue", "NN")] {[ "the" ]}.
Proof.
  apply lem_and_stem_more_stopwords. set_solver.
Defined.

(** ** BigramAugmenter *)

Section BigramAugmenterFacts.

Variable Phraser : list (list string) → option (list string → list string).

Lemma add_tokens_alter idx (text : list (list string)) tokens :
  foldl (add_token idx) text tokens
    = alter (λ doc, doc ++ filter (λ token, PyStr.contains "_" token) tokens) idx text.
Proof.
  revert text. induction tokens as [|token tokens IH]; intros text.
  - simpl. symmetry. apply list_alter_id. intros doc. apply app_nil_r.
  - simpl. rewrite IH. unfold add_token. rewrite filter_cons.
    destruct (PyStr.contains "_" token); simpl.
    + rewrite list_alter_alter_eq. apply list_alter_ext; [|done].
      intros doc _. simpl. by rewrite <- app_assoc.
    + done.
Qed.

Lemma add_bigrams_loop_spec (bigram : list string → list string)
    (ready todo : list (list string)) :
  add_bigrams_loop bigram (ready ++ todo) (seq (length ready) (length todo))
    = Some (ready ++ ((λ doc, doc ++ filter (λ token, PyStr.contains "_" token)
                                      (bigram doc)) <$> todo)).
Proof.
  revert ready. induction todo as [|doc todo IH]; intros ready; [done|].
  cbn [length seq add_bigrams_loop]. unfold add_bigrams_at.
  rewrite list_lookup_middle by done. cbn [mbind option_bind].
  rewrite add_tokens_alter.
  rewrite <- (Nat.add_0_r (length ready)) at 1. rewrite alter_app_r.
  cbn [alter list_alter]. specialize (IH (ready ++ [doc ++
    filter (λ token, PyStr.contains "_" token) (bigram doc)])).
  rewrite length_app, Nat.add_1_r, <- app_assoc in IH. simpl in IH.
  rewrite IH. by rewrite fmap_cons, <- app_assoc.
Qed.

(** X15. [add_bigrams] raises only if building the detector does.
    Otherwise it returns the same number of documents; each document keeps
    all its tokens, in order, and gets appended exactly the tokens with an
    underscore that the detector, built from the original collection,
    returns for it. *)
Theorem add_bigrams_spec (text : list (list string)) :
  add_bigrams Phraser text
    = (λ bigram : list string → list string,
         (λ doc, doc ++ filter (λ token, PyStr.contains "_" token) (bigram doc))
           <$> text)
      <$> Phraser text.
Proof.
  unfold add_bigrams. destruct (Phraser text) as [bigram|]; [|done].
  apply (add_bigrams_loop_spec bigram [] text).
Qed.

End BigramAugmenterFacts.

(** ** TopicClusterer: failures and order *)

Lemma for_each_ext {S X} (body1 body2 : S → X → result S) st (items : list X) :
  (∀ st' x, x ∈ items → body1 st' x = body2 st' x) →
  for_each body1 st items = for_each body2 st items.
Proof.
  revert st. induction items as [|x items IH]; intros st Hext; [done|].
  simpl. rewrite (Hext st x) by by left.
  destruct (body2 st x); simpl; [|done]. apply IH. intros st' y Hy.
  apply Hext. by right.
Qed.

Lemma elem_of_enumerate {A} (l : list A) i x :
  (i, x) ∈ enumerate l ↔ l !! i = Some x.
Proof.
  unfold enumerate. rewrite elem_of_lookup_imap. split.
  - by intros (j & y & [= -> ->] & Hj).
  - intros Hi. by exists i, x.
Qed.

Section TopicClustererMore.

Context {W : Type} `{PyOrd W}.
Variable Doc : Type.
Variable lda : Doc → list (Z * W).

(** A step of the second loop that returns has appended the company to one
    existing bucket, that of a topic the model gave for its document. *)
Lemma assign_inv (corpus : list Doc) cluster idx company cluster' :
  assign Doc lda corpus cluster (idx, company) = Ok cluster' →
  ∃ doc t w bucket,
    corpus !! idx = Some doc ∧ (t, w) ∈ lda doc
    ∧ cluster !! t = Some bucket
    ∧ cluster' = <[t := bucket ++ [company]]> cluster.
Proof.
  unfold assign. destruct (corpus !! idx) as [doc|]; [|done]. simpl.
  destruct (py_max (snd <$> lda doc)) as [m|]; [|done]. simpl.
  destruct (py_index m (snd <$> lda doc)) as [k|]; [|done]. simpl.
  destruct (lda doc !! k) as [[t w]|] eqn:Hk; [|done]. simpl.
  destruct (cluster !! t) as [bucket|] eqn:Ht; [|done]. simpl.
  intros [= <-]. exists doc, t, w, bucket. repeat split; try done.
  by eapply list_elem_of_lookup_2.
Qed.

(** Whenever the function returns, the keys are the topics
    [0 .. num_topics - 1] and every bucket lists companies in input order. *)
Lemma cluster_run_inv num_topics (corpus : list Doc) companies cluster :
  cluster_companies_by_main_topic Doc lda num_topics corpus companies = Ok cluster →
  (∀ t, is_Some (cluster !! t) ↔ (0 ≤ t < num_topics)%Z)
  ∧ (∀ t bucket, cluster !! t = Some bucket → bucket `sublist_of` companies).
Proof.
  unfold cluster_companies_by_main_topic. revert cluster.
  induction companies as [|company companies IH] using rev_ind; intros cluster.
  - intros [= <-]. split.
    + intros t. rewrite init_cluster_lookup.
      case_decide; split; intros Ht;
        first [done | by eauto | by destruct Ht as [? ?]].
    + intros t bucket. rewrite init_cluster_lookup. case_decide; [|done].
      by intros [= <-].
  - rewrite enumerate_snoc, for_each_snoc.
    destruct (for_each _ _ (enumerate companies)) as [cluster0|]; [|done].
    cbn [bind]. intros Hstep.
    destruct (IH cluster0 eq_refl) as [Hkeys Hsub].
    apply assign_inv in Hstep as (doc & t & w & bucket & _ & _ & Hbucket & ->).
    split.
    + intros t'. rewrite lookup_insert_is_Some', <- Hkeys. split; [|by right].
      intros [<-|?]; [by eauto|done].
    + intros t' bucket'. destruct (decide (t = t')) as [<-|Hne].
      * rewrite lookup_insert_eq. intros [= <-].
        apply sublist_app; [by eapply Hsub|done].
      * rewrite lookup_insert_ne by done. intros Hb.
        apply sublist_inserts_r. by eapply Hsub.
Qed.

(** The companies before a failing one run first; the failure of the loop
    body on that company is the failure of the call. *)
Lemma cluster_fails_at num_topics (corpus : list Doc) companies idx company cluster e :
  companies !! idx = Some company →
  cluster_companies_by_main_topic Doc lda num_topics corpus (take idx companies)
    = Ok cluster →
  assign Doc lda corpus cluster (idx, company) = Raise e →
  cluster_companies_by_main_topic Doc lda num_topics corpus companies = Raise e.
Proof.
  unfold cluster_companies_by_main_topic. intros Hcompany Hrun Hbody.
  rewrite <- (take_drop_middle companies idx company Hcompany) at 1.
  rewrite enumerate_app, for_each_app, Hrun. cbn [bind imap for_each].
  rewrite Nat.add_0_r, length_take_le
    by (apply lookup_lt_Some in Hcompany; lia).
  by rewrite Hbody.
Qed.

(** X16. When the corpus has fewer documents than there are companies and
    the model is fine on every document, the call raises [IndexError] at the
    first company without document; no partial grouping is returned. *)
Theorem short_corpus_raises num_topics (corpus : list Doc) companies :
  length corpus < length companies →
  (∀ doc, doc ∈ corpus →
     lda doc ≠ [] ∧ ∀ t w, (t, w) ∈ lda doc → (0 ≤ t < num_topics)%Z) →
  cluster_companies_by_main_topic Doc lda num_topics corpus companies
    = Raise IndexError.
Proof.
  intros Hlen Hlda.
  destruct (lookup_lt_is_Some_2 companies (length corpus) Hlen) as [company Hcompany].
  destruct (cluster_loop_ok Doc lda num_topics corpus (take (length corpus) companies))
    as (cluster & Hrun & _); [rewrite length_take; lia|done|].
  eapply cluster_fails_at; [done..|].
  unfold assign. by rewrite lookup_ge_None_2.
Qed.

(** X17. When the first maximal pair of some document names a topic outside
    [0 .. num_topics - 1] and the companies before went through, the call
    raises [KeyError] for that topic. *)
Theorem unknown_topic_raises num_topics (corpus : list Doc) companies
    idx company doc k topic w cluster :
  companies !! idx = Some company →
  corpus !! idx = Some doc →
  lda doc !! k = Some (topic, w) →
  first_max_at (snd <$> lda doc) k w →
  ¬ (0 ≤ topic < num_topics)%Z →
  cluster_companies_by_main_topic Doc lda num_topics corpus (take idx companies)
    = Ok cluster →
  cluster_companies_by_main_topic Doc lda num_topics corpus companies
    = Raise (KeyError topic).
Proof.
  intros Hcompany Hdoc Hpair Hmax Hout Hrun.
  eapply cluster_fails_at; [done..|].
  destruct (cluster_run_inv _ _ _ _ Hrun) as [Hkeys _].
  assert (Hnone : cluster !! topic = None).
  { apply eq_None_not_Some. by rewrite Hkeys. }
  unfold assign. rewrite Hdoc. simpl.
  rewrite (py_max_first_max _ k w Hmax). simpl.
  rewrite (py_index_first_max _ k w Hmax). simpl.
  rewrite Hpair. simpl. by rewrite Hnone.
Qed.

(** X18. In the returned grouping every bucket lists its companies in the
    order in which they were passed in. *)
Theorem buckets_keep_input_order num_topics (corpus : list Doc) companies
    cluster t bucket :
  cluster_companies_by_main_topic Doc lda num_topics corpus companies = Ok cluster →
  cluster !! t = Some bucket →
  bucket `sublist_of` companies.
Proof.
  intros Hrun Hbucket. destruct (cluster_run_inv _ _ _ _ Hrun) as [_ Hsub].
  by eapply Hsub.
Qed.

(** X19. Documents of the corpus beyond the number of companies are never
    looked at: appending more documents does not change the result. *)
Theorem surplus_corpus_ignored num_topics (corpus surplus : list Doc) companies :
  length companies ≤ length corpus →
  cluster_companies_by_main_topic Doc lda num_topics (corpus ++ surplus) companies
    = cluster_companies_by_main_topic Doc lda num_topics corpus companies.
Proof.
  intros Hlen. unfold cluster_companies_by_main_topic. apply for_each_ext.
  intros cluster [idx company] Hin%elem_of_enumerate.
  apply lookup_lt_Some in Hin. unfold assign.
  by rewrite lookup_app_l by lia.
Qed.

End TopicClustererMore.

Lemma lda_example_in_range :
  ∀ doc, lda_example doc ≠ []
         ∧ ∀ t w, (t, w) ∈ lda_example doc → (0 ≤ t < 2)%Z.
Proof.
  intros doc. unfold lda_example.
  destruct (String.eqb doc "doc A"); (split; [done|]);
    intros t w [[= -> _]|[[= -> _]|[]%elem_of_nil]%elem_of_cons]%elem_of_cons; lia.
Qed.

Lemma short_corpus_raises_witness :
  cluster_companies_by_main_topic string lda_example 2 ["doc A"] ["A"; "B"]
  = Raise IndexError.
Proof.
  apply short_corpus_raises.
  - simpl. lia.
  - intros doc _. apply lda_example_in_range.
Defined.

Lemma unknown_topic_raises_witness :
  cluster_companies_by_main_topic string lda_tie 1 ["doc A"] ["A"]
  = Raise (KeyError 1).
Proof.
  apply (unknown_topic_raises string lda_tie 1 ["doc A"] ["A"] 0 "A" "doc A"
           1 1%Z 0.5%float (init_cluster 1)).
  - reflexivity.
  - reflexivity.
  - reflexivity.
  - exact float_tie_first_max.
  - lia.
  - reflexivity.
Defined.

Lemma buckets_keep_input_order_witness :
  ["A"; "C"] `sublist_of` ["A"; "B"; "C"].
Proof.
  apply (buckets_keep_input_order string lda_example 2
           ["doc A"; "doc B"; "doc A"] ["A"; "B"; "C"]
           {[ 0%Z := ["B"]; 1%Z := ["A"; "C"] ]} 1%Z).
  - vm_compute. reflexivity.
  - reflexivity.
Defined.

Lemma surplus_corpus_ignored_witness :
  cluster_companies_by_main_topic string lda_example 2
    (["doc A"; "doc B"] ++ ["doc C"]) ["A"; "B"]
  = cluster_companies_by_main_topic string lda_example 2
      ["doc A"; "doc B"] ["A"; "B"].
Proof.
  apply surplus_corpus_ignored. simpl. lia.
Defined.
